(** * Verification of the FUSE connection core (connection.go) and of the
      forgetfs sample file system (samples/forgetfs/forget_fs.go).

    The Go code is embedded shallowly.  [Connection] is the Go struct
    together with the part of the outside world its methods act on: the
    stream of frames the kernel channel will yield and the log of effects
    performed so far.  A method is a function in the monad [M], which
    threads the connection and can end in a Go panic.

    Every method that touches [cancelFuncs] holds [c.mu] for its whole body,
    so each is one atomic step here; the mutex itself is not modelled. *)

From Stdlib Require Import ZArith String List Lia.
From stdpp Require Import base option list strings gmap.

Local Open Scope Z_scope.

(** ** Wire-level data *)

(** fuseshim.Message, restricted to what the core reads: [m.Hdr.Opcode]
    (uint32), [m.Hdr.Unique] (uint64) and the payload. *)
Record Message := mkMessage {
  Hdr_Opcode : Z;
  Hdr_Unique : Z;
  Payload : list Byte.byte
}.

(** Modelled from the spec: the integer opcode tags of package fusekernel,
    which is not among the sources.  The values are those of the FUSE wire
    protocol; no proof depends on them beyond their being distinct. *)
Definition OpForget : Z := 2.
Definition OpStatfs : Z := 17.
Definition OpInterrupt : Z := 36.

(** A Go [error] is represented by its message; [None] is the nil error. *)
Definition error := string.
Definition io_EOF : error := "EOF"%string.

(** [fmt.Errorf(prefix + "%v", err)]. *)
Definition Errorf (prefix : string) (err : error) : error :=
  String.append prefix err.

(** ** Contexts *)

(** A context is the parent context or a cancellable child made by
    [context.WithCancel].  The number identifies the allocation; the cancel
    function returned alongside is identified by the same number. *)
Inductive Ctx :=
| CtxParent
| CtxWithCancel (parent : Ctx) (id : nat).

Definition CancelFunc := nat.

(** ** Effects *)

Inductive Event :=
| EvCancel (f : CancelFunc)            (* a cancel function was called *)
| EvRecord (fuseID : Z) (f : CancelFunc) (* c.cancelFuncs[fuseID] = f *)
| EvDelete (fuseID : Z)                (* delete(c.cancelFuncs, fuseID) *)
| EvDebugLog (opID : Z) (msg : string) (* c.debugLogger.Println *)
| EvErrorLog (msg : string)            (* c.errorLogger.Printf *)
| EvWriteToKernel (b : list Byte.byte) (* c.wrapped.WriteToKernel *)
| EvDestroy (m : Message).             (* m.Destroy() *)

(** ** The kernel channel (fuseshim.Conn) *)

(** [incoming] is what successive [ReadMessage] calls return: a frame or a
    read error; once it is exhausted the kernel has closed the channel and
    [ReadMessage] returns io.EOF.  [writeErrs n] is the error, if any, with
    which the [n]-th [WriteToKernel] call fails. *)
Record Conn := mkConn {
  incoming : list (error + Message);
  writeErrs : nat -> option error;
  nWritten : nat;
  Protocol : Z
}.

(** ** The connection *)

Record Connection := mkConnection {
  debugLogger : bool;                 (* debugLogger != nil *)
  errorLogger : bool;                 (* errorLogger != nil *)
  wrapped : Conn;
  parentCtx : Ctx;
  nextOpID : Z;                       (* uint32 *)
  cancelFuncs : gmap Z CancelFunc;    (* map[uint64]func() *)
  ctxSeq : nat;                       (* contexts allocated so far *)
  effects : list Event                (* oldest first *)
}.

Definition newConnection (parent : Ctx) (dbg err : bool) (w : Conn)
  : Connection :=
  {| debugLogger := dbg; errorLogger := err; wrapped := w;
     parentCtx := parent; nextOpID := 0; cancelFuncs := ∅;
     ctxSeq := 0; effects := [] |}.

Definition set_cancelFuncs (f : gmap Z CancelFunc -> gmap Z CancelFunc)
  (c : Connection) : Connection :=
  {| debugLogger := debugLogger c; errorLogger := errorLogger c;
     wrapped := wrapped c; parentCtx := parentCtx c;
     nextOpID := nextOpID c; cancelFuncs := f (cancelFuncs c);
     ctxSeq := ctxSeq c; effects := effects c |}.

Definition set_wrapped (w : Conn) (c : Connection) : Connection :=
  {| debugLogger := debugLogger c; errorLogger := errorLogger c;
     wrapped := w; parentCtx := parentCtx c;
     nextOpID := nextOpID c; cancelFuncs := cancelFuncs c;
     ctxSeq := ctxSeq c; effects := effects c |}.

Definition set_nextOpID (n : Z) (c : Connection) : Connection :=
  {| debugLogger := debugLogger c; errorLogger := errorLogger c;
     wrapped := wrapped c; parentCtx := parentCtx c;
     nextOpID := n; cancelFuncs := cancelFuncs c;
     ctxSeq := ctxSeq c; effects := effects c |}.

Definition set_ctxSeq (n : nat) (c : Connection) : Connection :=
  {| debugLogger := debugLogger c; errorLogger := errorLogger c;
     wrapped := wrapped c; parentCtx := parentCtx c;
     nextOpID := nextOpID c; cancelFuncs := cancelFuncs c;
     ctxSeq := n; effects := effects c |}.

Definition add_effect (e : Event) (c : Connection) : Connection :=
  {| debugLogger := debugLogger c; errorLogger := errorLogger c;
     wrapped := wrapped c; parentCtx := parentCtx c;
     nextOpID := nextOpID c; cancelFuncs := cancelFuncs c;
     ctxSeq := ctxSeq c; effects := effects c ++ [e] |}.

(** ** The monad of methods *)

Inductive PanicValue :=
| AlreadyHaveCancelFunc (fuseID : Z)  (* "Already have cancel func for request %v" *)
| UnknownRequestID (fuseID : Z).      (* "Unknown request ID in finishOp: %v" *)

Inductive Res (A : Type) :=
| Val (a : A)
| Panic (p : PanicValue).
Arguments Val {A} a.
Arguments Panic {A} p.

Definition M (A : Type) : Type := Connection -> Res A * Connection.

#[global] Instance M_ret : MRet M := fun A a c => (Val a, c).
#[global] Instance M_bind : MBind M := fun A B k m c =>
  match m c with
  | (Val a, c') => k a c'
  | (Panic p, c') => (Panic p, c')
  end.

Definition panic {A} (p : PanicValue) : M A := fun c => (Panic p, c).
Definition get {A} (f : Connection -> A) : M A := fun c => (Val (f c), c).
Definition modify (f : Connection -> Connection) : M unit :=
  fun c => (Val tt, f c).
Definition emit (e : Event) : M unit := modify (add_effect e).

(** [defer d()] followed by [body]: [d] runs when [body] returns and also
    when it panics. *)
Definition defer {A} (d : M unit) (body : M A) : M A := fun c =>
  let (r, c1) := body c in (r, snd (d c1)).

(** [if b { body }]. *)
Definition when (b : bool) (body : M unit) : M unit :=
  if b then body else mret tt.

Definition panicked {A} (r : Res A) : Prop := exists p, r = Panic p.

(** ** External calls *)

(** [context.WithCancel(ctx)]. *)
Definition WithCancel (ctx : Ctx) : M (Ctx * CancelFunc) := fun c =>
  (Val (CtxWithCancel ctx (ctxSeq c), ctxSeq c), set_ctxSeq (S (ctxSeq c)) c).

(** Calling a cancel function. *)
Definition call_cancel (f : CancelFunc) : M unit := emit (EvCancel f).

(** [c.wrapped.ReadMessage()]. *)
Definition set_incoming (frames : list (error + Message)) (c : Connection)
  : Connection :=
  set_wrapped {| incoming := frames; writeErrs := writeErrs (wrapped c);
                 nWritten := nWritten (wrapped c);
                 Protocol := Protocol (wrapped c) |} c.

Definition ReadMessage : M (error + Message) := fun c =>
  match incoming (wrapped c) with
  | [] => (Val (inl io_EOF), c)
  | r :: rest => (Val r, set_incoming rest c)
  end.

(** [c.wrapped.WriteToKernel(b)]. *)
Definition WriteToKernel (b : list Byte.byte) : M (option error) := fun c =>
  let w := wrapped c in
  (Val (writeErrs w (nWritten w)),
   add_effect (EvWriteToKernel b)
     (set_wrapped {| incoming := incoming w; writeErrs := writeErrs w;
                     nWritten := S (nWritten w); Protocol := Protocol w |} c)).

(** [m.Destroy()]. *)
Definition Destroy (m : Message) : M unit := emit (EvDestroy m).

(** ** connection.go *)

(** [debugLog]: the line printed is represented by the op ID and the
    formatted message; the file:line tag of [runtime.Caller] is left out. *)
Definition debugLog (opID : Z) (msg : string) : M unit := fun c =>
  if debugLogger c then emit (EvDebugLog opID msg) c else (Val tt, c).

Definition recordCancelFunc (fuseID : Z) (f : CancelFunc) : M unit := fun c =>
  match cancelFuncs c !! fuseID with
  | Some _ => (Panic (AlreadyHaveCancelFunc fuseID), c)
  | None =>
      (Val tt, add_effect (EvRecord fuseID f)
                 (set_cancelFuncs (fun fs => <[fuseID := f]> fs) c))
  end.

Definition beginOp (opCode fuseID : Z) : M Ctx :=
  ctx ← get parentCtx;
  if decide (opCode ≠ OpForget) then
    '(ctx', cancel) ← WithCancel ctx;
    recordCancelFunc fuseID cancel;;
    mret ctx'
  else mret ctx.

Definition finishOp (opCode fuseID : Z) : M unit :=
  if decide (opCode ≠ OpForget) then
    fs ← get cancelFuncs;
    match fs !! fuseID with
    | None => panic (UnknownRequestID fuseID)
    | Some cancel =>
        call_cancel cancel;;
        modify (set_cancelFuncs (fun fs => delete fuseID fs));;
        emit (EvDelete fuseID)
    end
  else mret tt.

Definition handleInterrupt (fuseID : Z) : M unit :=
  fs ← get cancelFuncs;
  match fs !! fuseID with
  | None => mret tt
  | Some cancel => call_cancel cancel
  end.

(** ** Typed operations (package fuseops) *)

(** The Go type of the op that [fuseops.Convert] built, as far as [ReadOp]
    tells the cases apart by type assertion.  [FuseID] is the field of
    [InternalInterruptOp] naming the request to interrupt. *)
Inductive OpKind :=
| InternalStatFSOp
| InternalInterruptOp (FuseID : Z)
| UserOp.

(** What the codec decides about an op.  [kernelResponse err] is the reply
    buffer the op encodes for [Respond(err)]. *)
Record OpData := mkOpData {
  kind : OpKind;
  ShortDesc : string;
  DebugString : string;
  kernelResponse : option error -> list Byte.byte
}.

(** A typed op: the codec's data and what [Convert] was given by [ReadOp],
    namely the op context, the frame (captured by the reply closure) and
    the logging op ID (captured by [debugLogForOp]). *)
Record Op := mkOp {
  op_data : OpData;
  op_ctx : Ctx;
  op_msg : Message;
  op_logID : Z
}.

(** Modelled from the spec: [op.Logf] of package fuseops, which is not among
    the sources.  The op's log sink binding is the [debugLogForOp] that
    [ReadOp] passed to [Convert], which forwards to [c.debugLog] with the
    logging op ID. *)
Definition Logf (op : Op) (msg : string) : M unit :=
  debugLog (op_logID op) msg.

(** The reply closure [sendReply] built by [ReadOp] for the frame [m]. *)
Definition sendReply (m : Message) (op : Op) (fuseID : Z)
  (replyMsg : list Byte.byte) (opErr : option error) : M (option error) :=
  defer (Destroy m) (
    finishOp (Hdr_Opcode m) (Hdr_Unique m);;
    dbg ← get debugLogger;
    when dbg
      match opErr with
      | None => Logf op (String.append "-> OK: " (DebugString (op_data op)))
      | Some e => Logf op (String.append "-> error: " e)
      end;;
    errl ← get errorLogger;
    match opErr return M unit with
    | Some e =>
        when errl
          (emit (EvErrorLog
                   (String.append "("
                      (String.append (ShortDesc (op_data op))
                         (String.append ") error: " e)))))
    | None => mret tt
    end;;
    err ← WriteToKernel replyMsg;
    match err return M (option error) with
    | Some e => mret (Some (Errorf "WriteToKernel: " e))
    | None => mret None
    end).

(** Modelled from the spec: [op.Respond] of package fuseops, which is not
    among the sources.  [Respond(err)] encodes the reply and calls the reply
    closure that [Convert] was given, once, with the op's request ID. *)
Definition Respond (op : Op) (err : option error) : M unit :=
  sendReply (op_msg op) op (Hdr_Unique (op_msg op))
    (kernelResponse (op_data op) err) err;;
  mret tt.

Section ReadOp.

(** [fuseops.Convert], which is not among the sources: from the op
    context, the frame and the protocol version it yields a convert error
    or the typed op's data. *)
Variable Convert : Ctx -> Message -> Z -> error + OpData.

(** One iteration of the loop of [ReadOp] after a frame was read.  [None]
    is [continue]; [Some r] is [return] with [r]. *)
Definition ReadOp_iter (m : Message) : M (option (error + Op)) :=
  opID ← get nextOpID;
  modify (set_nextOpID ((opID + 1) mod 2 ^ 32));;
  opCtx ← beginOp (Hdr_Opcode m) (Hdr_Unique m);
  proto ← get (fun c => Protocol (wrapped c));
  match Convert opCtx m proto return M (option (error + Op)) with
  | inl err => mret (Some (inl (Errorf "fuseops.Convert: " err)))
  | inr d =>
      let op := mkOp d opCtx m opID in
      debugLog opID (String.append "<- " (ShortDesc d));;
      match kind d return M (option (error + Op)) with
      | InternalStatFSOp => Respond op None;; mret None
      | InternalInterruptOp fid => handleInterrupt fid;; mret None
      | UserOp => mret (Some (inr op))
      end
  end.

(** The same iteration, case by case. *)
Definition ReadOp_iter_cases (m : Message) (c : Connection)
  : Res (option (error + Op)) * Connection :=
  let opID := nextOpID c in
  match beginOp (Hdr_Opcode m) (Hdr_Unique m)
          (set_nextOpID ((opID + 1) mod 2 ^ 32) c) with
  | (Panic p, cb) => (Panic p, cb)
  | (Val opCtx, cb) =>
      match Convert opCtx m (Protocol (wrapped cb)) with
      | inl err => (Val (Some (inl (Errorf "fuseops.Convert: " err))), cb)
      | inr d =>
          let op := mkOp d opCtx m opID in
          let cl := snd (debugLog opID (String.append "<- " (ShortDesc d)) cb) in
          match kind d with
          | InternalStatFSOp =>
              match Respond op None cl with
              | (Val _, c') => (Val None, c')
              | (Panic p, c') => (Panic p, c')
              end
          | InternalInterruptOp fid => (Val None, snd (handleInterrupt fid cl))
          | UserOp => (Val (Some (inr op)), cl)
          end
      end
  end.

(** The loop.  Every iteration takes a frame off [incoming], so a budget
    of [length incoming] further iterations is never used up
    ([ReadOp_loop_fuel] below). *)
Fixpoint ReadOp_loop (fuel : nat) : M (error + Op) :=
  r ← ReadMessage;
  match r return M (error + Op) with
  | inl err => mret (inl err)
  | inr m =>
      o ← ReadOp_iter m;
      match o return M (error + Op) with
      | Some res => mret res
      | None =>
          match fuel return M (error + Op) with
          | O => mret (inl io_EOF)
          | S fuel' => ReadOp_loop fuel'
          end
      end
  end.

Definition ReadOp : M (error + Op) := fun c =>
  ReadOp_loop (length (incoming (wrapped c))) c.

End ReadOp.

(** ** Threads acting on one connection *)

(** The steps of a server, in the order in which they take effect: the
    reader thread calls [ReadOp]; a handler thread calls [Respond(err)] on
    the [i]-th op that [ReadOp] has returned.  A reply closure changes the
    registry only inside [finishOp], under [c.mu], so running a whole
    closure as one step loses no interleaving of registry updates. *)
Inductive Action :=
| ARead
| AReply (i : nat) (err : option error).

Record Run := mkRun {
  run_conn : Connection;
  run_ops : list Op;        (* the ops ReadOp returned, oldest first *)
  run_replied : list nat    (* the ops whose reply closure has run *)
}.

Inductive RunResult :=
| Finished (r : Run)
| Panicked (p : PanicValue)
| NotASchedule.             (* a reply to no op, or a second reply *)

Definition start (c : Connection) : Run :=
  {| run_conn := c; run_ops := []; run_replied := [] |}.

Section Schedules.

Variable Convert : Ctx -> Message -> Z -> error + OpData.

Definition step (a : Action) (r : Run) : RunResult :=
  match a with
  | ARead =>
      match ReadOp Convert (run_conn r) with
      | (Val (inr op), c') =>
          Finished {| run_conn := c'; run_ops := run_ops r ++ [op];
                      run_replied := run_replied r |}
      | (Val (inl _), c') =>
          Finished {| run_conn := c'; run_ops := run_ops r;
                      run_replied := run_replied r |}
      | (Panic p, _) => Panicked p
      end
  | AReply i err =>
      if decide (i ∈ run_replied r) then NotASchedule
      else
        match run_ops r !! i with
        | None => NotASchedule
        | Some op =>
            match Respond op err (run_conn r) with
            | (Val _, c') =>
                Finished {| run_conn := c'; run_ops := run_ops r;
                            run_replied := i :: run_replied r |}
            | (Panic p, _) => Panicked p
            end
        end
  end.

Fixpoint run (sched : list Action) (r : Run) : RunResult :=
  match sched with
  | [] => Finished r
  | a :: sched' =>
      match step a r with
      | Finished r' => run sched' r'
      | other => other
      end
  end.

(** Every frame of the stream converts to an op that is returned to the
    caller or to a statfs op: no interrupt frame, no convert failure. *)
Definition plain_frames (frames : list (error + Message)) : Prop :=
  forall m, inr m ∈ frames ->
    forall ctx proto, exists d,
      Convert ctx m proto = inr d /\
      (kind d = UserOp \/ kind d = InternalStatFSOp).

End Schedules.

(** The op [i] of a run is still awaiting its reply and is not a forget. *)
Definition pending (r : Run) (i : nat) (op : Op) : Prop :=
  run_ops r !! i = Some op /\ (i ∉ run_replied r) /\
  Hdr_Opcode (op_msg op) ≠ OpForget.

Definition all_replied (r : Run) : Prop :=
  forall i, lt i (length (run_ops r)) -> i ∈ run_replied r.

(** The registry holds exactly the unique IDs of the ops that await their
    reply and are not forgets, and no two of those share an ID. *)
Definition registry_matches (r : Run) : Prop :=
  (forall u, is_Some (cancelFuncs (run_conn r) !! u) <->
             exists i op, pending r i op /\ Hdr_Unique (op_msg op) = u) /\
  (forall i j op op', pending r i op -> pending r j op' ->
     Hdr_Unique (op_msg op) = Hdr_Unique (op_msg op') -> i = j) /\
  (forall i, i ∈ run_replied r -> lt i (length (run_ops r))).

(** ** Closed forms of the reply closure *)

Definition add_effects (es : list Event) (c : Connection) : Connection :=
  fold_left (fun c e => add_effect e c) es c.

(** The lines [sendReply] logs. *)
Definition reply_logs (c : Connection) (op : Op) (opErr : option error)
  : list Event :=
  (if debugLogger c then
     [EvDebugLog (op_logID op)
        match opErr with
        | None => String.append "-> OK: " (DebugString (op_data op))
        | Some e => String.append "-> error: " e
        end]
   else []) ++
  match opErr with
  | Some e =>
      if errorLogger c then
        [EvErrorLog (String.append "("
                       (String.append (ShortDesc (op_data op))
                          (String.append ") error: " e)))]
      else []
  | None => []
  end.

(** What [sendReply] returns for the outcome of [WriteToKernel]. *)
Definition reply_result (c : Connection) : option error :=
  match writeErrs (wrapped c) (nWritten (wrapped c)) with
  | Some e => Some (Errorf "WriteToKernel: " e)
  | None => None
  end.

Definition is_write (e : Event) : bool :=
  match e with EvWriteToKernel _ => true | _ => false end.

Definition is_delete (e : Event) : bool :=
  match e with EvDelete _ => true | _ => false end.

#[global] Instance byte_eq_dec : EqDecision Byte.byte := Byte.byte_eq_dec.

#[global] Instance Message_eq_dec : EqDecision Message.
Proof. solve_decision. Defined.

#[global] Instance Event_eq_dec : EqDecision Event.
Proof. solve_decision. Defined.

Definition no_write (es : list Event) : Prop :=
  Forall (fun e => is_write e = false) es.

Definition only_records (es : list Event) : Prop :=
  Forall (fun e => exists u f, e = EvRecord u f) es.

(** [beginOp] does not panic on the frame [m]. *)
Definition can_begin (m : Message) (c : Connection) : Prop :=
  Hdr_Opcode m = OpForget \/ cancelFuncs c !! Hdr_Unique m = None.

(** The context [beginOp] returns for the frame [m]. *)
Definition op_context (m : Message) (c : Connection) : Ctx :=
  if decide (Hdr_Opcode m = OpForget) then parentCtx c
  else CtxWithCancel (parentCtx c) (ctxSeq c).

(** The registry after [beginOp] returned for the frame [m]. *)
Definition registered (m : Message) (f : CancelFunc)
  (fs : gmap Z CancelFunc) : gmap Z CancelFunc :=
  if decide (Hdr_Opcode m = OpForget) then fs else <[Hdr_Unique m := f]> fs.

Definition is_destroy (e : Event) : bool :=
  match e with EvDestroy _ => true | _ => false end.


(** The fields of a connection that are fixed when it is built. *)
Definition same_config (c c' : Connection) : Prop :=
  parentCtx c' = parentCtx c /\ debugLogger c' = debugLogger c /\
  errorLogger c' = errorLogger c /\
  writeErrs (wrapped c') = writeErrs (wrapped c) /\
  Protocol (wrapped c') = Protocol (wrapped c).

(** [finishOp] does not panic on the frame [m]. *)
Definition can_finish (m : Message) (c : Connection) : Prop :=
  Hdr_Opcode m = OpForget \/ is_Some (cancelFuncs c !! Hdr_Unique m).


(** How often the cancel function [f] was called in [es]. *)
Definition cancels (f : CancelFunc) (es : list Event) : nat :=
  length (filter (fun e => e = EvCancel f) es).

(** [handleInterrupt fuseID], [k] times in a row. *)
Fixpoint interrupts (k : nat) (fuseID : Z) : M unit :=
  match k with
  | O => mret tt
  | S k' => handleInterrupt fuseID;; interrupts k' fuseID
  end.

(** ** A sample kernel channel and codec *)

Module Sample.

Definition OpLookup : Z := 1.
Definition OpRead : Z := 15.

Definition frame (opcode unique : Z) : Message :=
  {| Hdr_Opcode := opcode; Hdr_Unique := unique; Payload := [] |}.

(** An interrupt frame whose payload names the request to interrupt. *)
Definition interrupt_frame (unique target : Z) : Message :=
  {| Hdr_Opcode := OpInterrupt; Hdr_Unique := unique;
     Payload := [default Byte.x00 (Byte.of_N (Z.to_N target))] |}.

Definition data (k : OpKind) (desc : string) : OpData :=
  {| kind := k; ShortDesc := desc; DebugString := desc;
     kernelResponse := fun _ => [] |}.

(** A codec that knows four opcodes and the three internal ones, and
    fails on every other opcode. *)
Definition Convert (ctx : Ctx) (m : Message) (proto : Z) : error + OpData :=
  if decide (Hdr_Opcode m = OpStatfs) then
    inr (data InternalStatFSOp "StatFS")
  else if decide (Hdr_Opcode m = OpInterrupt) then
    match Payload m with
    | b :: _ => inr (data (InternalInterruptOp (Z.of_N (Byte.to_N b))) "Interrupt")
    | [] => inl "short interrupt"%string
    end
  else if decide (Hdr_Opcode m = OpForget) then inr (data UserOp "ForgetInode")
  else if decide (Hdr_Opcode m = OpLookup) then inr (data UserOp "LookUpInode")
  else if decide (Hdr_Opcode m = OpRead) then inr (data UserOp "ReadFile")
  else inl "unknown opcode"%string.

Definition channel (frames : list Message) : Conn :=
  {| incoming := inr <$> frames; writeErrs := fun _ => None;
     nWritten := 0; Protocol := 7 |}.

Definition connection (frames : list Message) : Connection :=
  newConnection CtxParent false false (channel frames).

End Sample.

(** Further sample connections. *)
Module Scenario.

(** A connection with both loggers whose kernel channel refuses every
    write. *)
Definition failing_writes : Connection :=
  newConnection CtxParent true true
    {| incoming := []; writeErrs := fun _ => Some "EIO"%string;
       nWritten := 0; Protocol := 7 |}.

(** A connection on which the read op with unique ID 9 awaits its reply,
    with [frames] still to come. *)
Definition read_in_flight (frames : list Message) : Connection :=
  snd (beginOp Sample.OpRead 9 (Sample.connection frames)).

(** A connection whose next op ID is the largest uint32. *)
Definition last_op_id (frames : list Message) : Connection :=
  set_nextOpID (2 ^ 32 - 1) (Sample.connection frames).

End Scenario.

(** ** samples/forgetfs/forget_fs.go *)

Module ForgetFS.

Definition wrap_int (z : Z) : Z := (z + 2 ^ 63) mod 2 ^ 64 - 2 ^ 63.

(** fuseops.InodeAttributes, restricted to the fields this file sets. *)
Record InodeAttributes := mkInodeAttributes {
  Nlink : Z;
  Mode : Z
}.

Definition os_ModeDir : Z := 2 ^ 31.

Record inode := mkInode {
  attributes : InodeAttributes;
  lookupCount : Z              (* int *)
}.

(** [inodes] maps an inode ID (uint64) to the inode it points to; every
    key has an inode of its own, as in [NewFileSystem], and an ID that is
    not a key reads as nil. *)
Record fsImpl := mkFsImpl {
  inodes : gmap Z inode;
  nextInodeID : Z
}.

Definition RootInodeID : Z := 1.
Definition cannedID_Root : Z := RootInodeID + 0.
Definition cannedID_Foo : Z := RootInodeID + 1.
Definition cannedID_Bar : Z := RootInodeID + 2.
Definition cannedID_Next : Z := RootInodeID + 3.

Definition NewFileSystem : fsImpl :=
  {| inodes :=
       <[cannedID_Root :=
           {| lookupCount := 1;
              attributes := {| Nlink := 1; Mode := Z.lor 511 os_ModeDir |} |}]>
       (<[cannedID_Foo :=
           {| lookupCount := 0;
              attributes := {| Nlink := 1; Mode := 511 |} |}]>
       (<[cannedID_Bar :=
           {| lookupCount := 0;
              attributes := {| Nlink := 1; Mode := Z.lor 511 os_ModeDir |} |}]>
        ∅));
     nextInodeID := cannedID_Next |}.

Inductive PanicValue :=
| NegativeLookupCount          (* "Negative lookup count" *)
| UnexpectedlyLargeInodeID     (* "Unexpectedly large inode ID" *)
| UnknownInode (id : Z)        (* "Unknown inode: %v" *)
| ForgottenInode (id : Z).     (* "Forgotten inode: %v" *)

Inductive Res (A : Type) :=
| Val (a : A)
| Panic (p : PanicValue).
Arguments Val {A} a.
Arguments Panic {A} p.

Definition checkInvariants (fs : fsImpl) : Res unit :=
  if decide (map_Forall (fun _ v => lookupCount v >= 0) (inodes fs)) then
    if decide (map_Forall (fun k _ => k < nextInodeID fs) (inodes fs)) then
      Val tt
    else Panic UnexpectedlyLargeInodeID
  else Panic NegativeLookupCount.

(** The two INVARIANT comments of [fsImpl]. *)
Definition invariants (fs : fsImpl) : Prop :=
  (forall k v, inodes fs !! k = Some v -> lookupCount v >= 0) /\
  (forall k v, inodes fs !! k = Some v -> k < nextInodeID fs).

Definition findInodeByID (fs : fsImpl) (id : Z) : Res inode :=
  match inodes fs !! id with
  | None => Panic (UnknownInode id)
  | Some i =>
      if decide (lookupCount i <= 0) then Panic (ForgottenInode id)
      else Val i
  end.

(** What the op is responded with. *)
Inductive LookUpReply :=
| ENOENT
| Entry (Child : Z) (Attributes : InodeAttributes).

(** [fs.mu] is a syncutil.InvariantMutex over [checkInvariants]: with
    invariant checking enabled, [Lock] runs the check after locking and
    [Unlock] runs it before unlocking. *)
Definition mu_check (checking : bool) (fs : fsImpl) : Res unit :=
  if checking then checkInvariants fs else Val tt.

(** [fs.mu.Lock(); defer fs.mu.Unlock(); body]: the result of the method
    and the file system it leaves behind. *)
Definition locked {A} (checking : bool) (body : fsImpl -> Res A * fsImpl)
  (fs : fsImpl) : Res A * fsImpl :=
  match mu_check checking fs with
  | Panic p => (Panic p, fs)
  | Val _ =>
      let (r, fs') := body fs in
      match mu_check checking fs' with
      | Panic p => (Panic p, fs')
      | Val _ => (r, fs')
      end
  end.

Definition Init (fs : fsImpl) : Res unit * fsImpl := (Val tt, fs).

Definition LookUpInode (checking : bool) (Parent : Z) (Name : string)
  : fsImpl -> Res LookUpReply * fsImpl :=
  locked checking (fun fs =>
    match findInodeByID fs Parent with
    | Panic p => (Panic p, fs)
    | Val _ =>
        let childID :=
          if decide (Parent = cannedID_Root /\ Name = "foo"%string)
          then Some cannedID_Foo
          else if decide (Parent = cannedID_Root /\ Name = "bar"%string)
          then Some cannedID_Bar
          else None in
        match childID with
        | None => (Val ENOENT, fs)
        | Some childID =>
            match findInodeByID fs childID with
            | Panic p => (Panic p, fs)
            | Val child =>
                let child' :=
                  {| attributes := attributes child;
                     lookupCount := wrap_int (lookupCount child + 1) |} in
                (Val (Entry childID (attributes child')),
                 {| inodes := <[childID := child']> (inodes fs);
                    nextInodeID := nextInodeID fs |})
            end
        end
    end).

Definition GetInodeAttributes (checking : bool) (Inode : Z)
  : fsImpl -> Res InodeAttributes * fsImpl :=
  locked checking (fun fs =>
    match findInodeByID fs Inode with
    | Panic p => (Panic p, fs)
    | Val i => (Val (attributes i), fs)
    end).

(** The ops a mounted forgetfs serves, and the file systems reachable
    from [NewFileSystem] through them. *)
Inductive Request :=
| ReqInit
| ReqLookUpInode (Parent : Z) (Name : string)
| ReqGetInodeAttributes (Inode : Z).

Definition serve (checking : bool) (q : Request) (fs : fsImpl) : fsImpl :=
  match q with
  | ReqInit => snd (Init fs)
  | ReqLookUpInode p n => snd (LookUpInode checking p n fs)
  | ReqGetInodeAttributes i => snd (GetInodeAttributes checking i fs)
  end.





End ForgetFS.

(** ** The registry operations, step by step *)

Ltac unfold_M :=
  unfold mbind, M_bind, mret, M_ret, get, modify, emit, panic, when,
    call_cancel, defer, Destroy in *; simpl in *.

Lemma recordCancelFunc_fresh fuseID f c :
  cancelFuncs c !! fuseID = None ->
  recordCancelFunc fuseID f c =
    (Val tt, add_effect (EvRecord fuseID f)
               (set_cancelFuncs (fun fs => <[fuseID := f]> fs) c)).
Proof. intros H. unfold recordCancelFunc. by rewrite H. Qed.

Lemma recordCancelFunc_dup fuseID f g c :
  cancelFuncs c !! fuseID = Some g ->
  recordCancelFunc fuseID f c = (Panic (AlreadyHaveCancelFunc fuseID), c).
Proof. intros H. unfold recordCancelFunc. by rewrite H. Qed.

Lemma finishOp_forget fuseID c : finishOp OpForget fuseID c = (Val tt, c).
Proof. reflexivity. Qed.

Lemma finishOp_present opCode fuseID f c :
  opCode ≠ OpForget ->
  cancelFuncs c !! fuseID = Some f ->
  finishOp opCode fuseID c =
    (Val tt, add_effect (EvDelete fuseID)
               (set_cancelFuncs (fun fs => delete fuseID fs)
                  (add_effect (EvCancel f) c))).
Proof.
  intros Hop H. unfold finishOp.
  destruct (decide (opCode ≠ OpForget)) as [_|]; [|done].
  unfold_M. by rewrite H.
Qed.

Lemma finishOp_absent opCode fuseID c :
  opCode ≠ OpForget ->
  cancelFuncs c !! fuseID = None ->
  finishOp opCode fuseID c = (Panic (UnknownRequestID fuseID), c).
Proof.
  intros Hop H. unfold finishOp.
  destruct (decide (opCode ≠ OpForget)) as [_|]; [|done].
  unfold_M. by rewrite H.
Qed.

Lemma beginOp_forget fuseID c : beginOp OpForget fuseID c = (Val (parentCtx c), c).
Proof. reflexivity. Qed.

Lemma beginOp_fresh opCode fuseID c :
  opCode ≠ OpForget ->
  cancelFuncs c !! fuseID = None ->
  beginOp opCode fuseID c =
    (Val (CtxWithCancel (parentCtx c) (ctxSeq c)),
     add_effect (EvRecord fuseID (ctxSeq c))
       (set_cancelFuncs (fun fs => <[fuseID := ctxSeq c]> fs)
          (set_ctxSeq (S (ctxSeq c)) c))).
Proof.
  intros Hop H. unfold beginOp.
  destruct (decide (opCode ≠ OpForget)) as [_|]; [|done].
  unfold_M. unfold WithCancel. by rewrite recordCancelFunc_fresh.
Qed.

Lemma beginOp_dup opCode fuseID g c :
  opCode ≠ OpForget ->
  cancelFuncs c !! fuseID = Some g ->
  beginOp opCode fuseID c =
    (Panic (AlreadyHaveCancelFunc fuseID), set_ctxSeq (S (ctxSeq c)) c).
Proof.
  intros Hop H. unfold beginOp.
  destruct (decide (opCode ≠ OpForget)) as [_|]; [|done].
  unfold_M. unfold WithCancel. by erewrite recordCancelFunc_dup.
Qed.

Lemma handleInterrupt_absent fuseID c :
  cancelFuncs c !! fuseID = None -> handleInterrupt fuseID c = (Val tt, c).
Proof. intros H. unfold handleInterrupt. unfold_M. by rewrite H. Qed.

Lemma handleInterrupt_present fuseID f c :
  cancelFuncs c !! fuseID = Some f ->
  handleInterrupt fuseID c = (Val tt, add_effect (EvCancel f) c).
Proof. intros H. unfold handleInterrupt. unfold_M. by rewrite H. Qed.

(** ** The reply closure, step by step *)

Lemma sendReply_ok m op fuseID b opErr c c1 :
  finishOp (Hdr_Opcode m) (Hdr_Unique m) c = (Val tt, c1) ->
  sendReply m op fuseID b opErr c =
    (Val (reply_result c1),
     add_effect (EvDestroy m)
       (snd (WriteToKernel b (add_effects (reply_logs c1 op opErr) c1)))).
Proof.
  intros H. unfold sendReply, defer, mbind, M_bind. rewrite H.
  unfold reply_result, reply_logs, Logf, debugLog.
  destruct c1 as [dbg errl w p n fs k es]; simpl.
  destruct dbg, errl, opErr as [e|]; unfold_M;
    destruct (writeErrs w (nWritten w)); reflexivity.
Qed.

Lemma sendReply_panic m op fuseID b opErr c c1 p :
  finishOp (Hdr_Opcode m) (Hdr_Unique m) c = (Panic p, c1) ->
  sendReply m op fuseID b opErr c = (Panic p, add_effect (EvDestroy m) c1).
Proof.
  intros H. unfold sendReply, defer, mbind, M_bind. by rewrite H.
Qed.

Lemma effects_add_effects es c : effects (add_effects es c) = effects c ++ es.
Proof.
  revert c. induction es as [|e es IH]; intros c; simpl.
  - by rewrite app_nil_r.
  - rewrite IH. simpl. by rewrite <- app_assoc.
Qed.

Lemma cancelFuncs_add_effects es c :
  cancelFuncs (add_effects es c) = cancelFuncs c.
Proof. revert c. induction es as [|e es IH]; intros c; simpl; [done|by rewrite IH]. Qed.

Lemma wrapped_add_effects es c : wrapped (add_effects es c) = wrapped c.
Proof. revert c. induction es as [|e es IH]; intros c; simpl; [done|by rewrite IH]. Qed.

Lemma reply_logs_quiet c op opErr e :
  e ∈ reply_logs c op opErr -> is_write e = false /\ is_delete e = false.
Proof.
  unfold reply_logs. intros H. apply elem_of_app in H as [H|H].
  - destruct (debugLogger c); [|by apply elem_of_nil in H].
    apply list_elem_of_singleton in H. by subst.
  - destruct opErr; [|by apply elem_of_nil in H].
    destruct (errorLogger c); [|by apply elem_of_nil in H].
    apply list_elem_of_singleton in H. by subst.
Qed.

Lemma split_at_write (l1 t1 pre post : list Event) x y :
  is_write x = true -> is_write y = true ->
  (forall e, e ∈ l1 -> is_write e = false) ->
  (forall e, e ∈ t1 -> is_write e = false) ->
  l1 ++ x :: t1 = pre ++ y :: post ->
  pre = l1 /\ x = y /\ post = t1.
Proof.
  intros Hx Hy. revert pre.
  induction l1 as [|a l1 IH]; intros pre Hl Ht Heq.
  - destruct pre as [|p pre]; simpl in Heq.
    + by inversion Heq.
    + inversion Heq; subst. exfalso.
      assert (is_write y = false) as Hn
        by (apply Ht, elem_of_app; right; apply list_elem_of_here).
      congruence.
  - destruct pre as [|p pre]; simpl in Heq.
    + inversion Heq; subst. exfalso.
      assert (is_write y = false) as Hn by (apply Hl, list_elem_of_here).
      congruence.
    + inversion Heq; subst.
      destruct (IH pre) as (-> & -> & ->); auto.
      intros e He. apply Hl. by apply list_elem_of_further.
Qed.

(** The events one run of the reply closure adds: what [finishOp] did, the
    log lines, the write and the frame's destruction; nothing but the
    destruction if [finishOp] panics. *)
Lemma sendReply_effects m op fuseID b opErr c :
  let r := sendReply m op fuseID b opErr c in
  let logs := reply_logs c op opErr in
  (Hdr_Opcode m = OpForget /\
   effects (snd r) = effects c ++ logs ++ [EvWriteToKernel b; EvDestroy m])
  \/
  (Hdr_Opcode m ≠ OpForget /\ exists f,
     cancelFuncs c !! Hdr_Unique m = Some f /\
     effects (snd r) =
       effects c ++ [EvCancel f; EvDelete (Hdr_Unique m)] ++ logs ++
         [EvWriteToKernel b; EvDestroy m])
  \/
  (Hdr_Opcode m ≠ OpForget /\ cancelFuncs c !! Hdr_Unique m = None /\
   fst r = Panic (UnknownRequestID (Hdr_Unique m)) /\
   effects (snd r) = effects c ++ [EvDestroy m]).
Proof.
  intros r logs. subst r logs.
  destruct (decide (Hdr_Opcode m = OpForget)) as [Hf|Hf].
  - left. split; [done|].
    rewrite (sendReply_ok m op fuseID b opErr c c)
      by (rewrite Hf; apply finishOp_forget).
    simpl. rewrite effects_add_effects. by rewrite <- !app_assoc.
  - right. destruct (cancelFuncs c !! Hdr_Unique m) as [f|] eqn:Hl.
    + left. split; [done|]. exists f. split; [done|].
      rewrite (sendReply_ok _ _ _ _ _ _ _ (finishOp_present _ _ _ _ Hf Hl)).
      simpl. rewrite effects_add_effects. simpl. by rewrite <- !app_assoc.
    + right. rewrite (sendReply_panic _ _ _ _ _ _ _ _ (finishOp_absent _ _ _ Hf Hl)).
      done.
Qed.

(** What a step does to the registry and to the stream of frames. *)

Lemma finishOp_cases opCode fuseID c :
  (opCode = OpForget /\ finishOp opCode fuseID c = (Val tt, c)) \/
  (opCode ≠ OpForget /\ exists f c1,
     cancelFuncs c !! fuseID = Some f /\
     finishOp opCode fuseID c = (Val tt, c1) /\
     cancelFuncs c1 = delete fuseID (cancelFuncs c) /\
     wrapped c1 = wrapped c) \/
  (opCode ≠ OpForget /\ cancelFuncs c !! fuseID = None /\
   finishOp opCode fuseID c = (Panic (UnknownRequestID fuseID), c)).
Proof.
  destruct (decide (opCode = OpForget)) as [->|Hop].
  - left. split; [done|apply finishOp_forget].
  - right. destruct (cancelFuncs c !! fuseID) as [f|] eqn:Hl.
    + left. split; [done|]. eexists f, _. split; [done|].
      split; [by apply finishOp_present|]. done.
    + right. split; [done|]. split; [done|]. by apply finishOp_absent.
Qed.

Lemma Respond_cases op err c :
  let m := op_msg op in
  (Hdr_Opcode m = OpForget /\ exists c',
     Respond op err c = (Val tt, c') /\
     cancelFuncs c' = cancelFuncs c /\
     incoming (wrapped c') = incoming (wrapped c)) \/
  (Hdr_Opcode m ≠ OpForget /\ exists f c',
     cancelFuncs c !! Hdr_Unique m = Some f /\
     Respond op err c = (Val tt, c') /\
     cancelFuncs c' = delete (Hdr_Unique m) (cancelFuncs c) /\
     incoming (wrapped c') = incoming (wrapped c)) \/
  (Hdr_Opcode m ≠ OpForget /\ cancelFuncs c !! Hdr_Unique m = None /\
   fst (Respond op err c) = Panic (UnknownRequestID (Hdr_Unique m))).
Proof.
  intros m. unfold Respond, mbind, M_bind. fold m.
  destruct (finishOp_cases (Hdr_Opcode m) (Hdr_Unique m) c)
    as [[Hf H]|[(Hf & f & c1 & Hl & H & Hcf & Hw)|(Hf & Hl & H)]].
  - left. split; [done|]. rewrite (sendReply_ok _ _ _ _ _ _ _ H).
    eexists. split; [done|]. simpl.
    rewrite cancelFuncs_add_effects, wrapped_add_effects. done.
  - right. left. split; [done|]. rewrite (sendReply_ok _ _ _ _ _ _ _ H).
    eexists f, _. split; [done|]. split; [done|]. simpl.
    rewrite cancelFuncs_add_effects, wrapped_add_effects. by rewrite Hw.
  - right. right. split; [done|]. split; [done|].
    by rewrite (sendReply_panic _ _ _ _ _ _ _ _ H).
Qed.

Lemma debugLog_frame opID msg c :
  cancelFuncs (snd (debugLog opID msg c)) = cancelFuncs c /\
  wrapped (snd (debugLog opID msg c)) = wrapped c.
Proof. unfold debugLog. by destruct (debugLogger c). Qed.

Lemma beginOp_incoming opCode fuseID c :
  incoming (wrapped (snd (beginOp opCode fuseID c))) = incoming (wrapped c).
Proof.
  unfold beginOp. unfold_M. case_decide; [|done].
  unfold WithCancel, recordCancelFunc. simpl.
  by destruct (cancelFuncs c !! fuseID).
Qed.

Lemma Respond_incoming op err c :
  incoming (wrapped (snd (Respond op err c))) = incoming (wrapped c).
Proof.
  unfold Respond, mbind, M_bind.
  destruct (finishOp_cases (Hdr_Opcode (op_msg op)) (Hdr_Unique (op_msg op)) c)
    as [[Hf H]|[(Hf & f & c1 & Hl & H & Hcf & Hw)|(Hf & Hl & H)]].
  - rewrite (sendReply_ok _ _ _ _ _ _ _ H). simpl.
    by rewrite wrapped_add_effects.
  - rewrite (sendReply_ok _ _ _ _ _ _ _ H). simpl.
    by rewrite wrapped_add_effects, Hw.
  - by rewrite (sendReply_panic _ _ _ _ _ _ _ _ H).
Qed.

Lemma handleInterrupt_effects fuseID c :
  exists es, effects (snd (handleInterrupt fuseID c)) = effects c ++ es /\
             no_write es.
Proof.
  destruct (cancelFuncs c !! fuseID) as [f|] eqn:H.
  - rewrite (handleInterrupt_present _ _ _ H). eexists [_]. simpl.
    split; [done|]. by repeat constructor.
  - rewrite (handleInterrupt_absent _ _ H). exists []. rewrite app_nil_r.
    split; [done|constructor].
Qed.

Lemma handleInterrupt_frame fuseID c :
  cancelFuncs (snd (handleInterrupt fuseID c)) = cancelFuncs c /\
  wrapped (snd (handleInterrupt fuseID c)) = wrapped c.
Proof.
  destruct (cancelFuncs c !! fuseID) as [f|] eqn:H.
  - by rewrite (handleInterrupt_present _ _ _ H).
  - by rewrite (handleInterrupt_absent _ _ H).
Qed.

(** ** Effects of a step *)

Lemma debugLog_effects opID msg c :
  exists es, effects (snd (debugLog opID msg c)) = effects c ++ es /\
             no_write es.
Proof.
  unfold debugLog. destruct (debugLogger c).
  - eexists [_]. simpl. split; [done|]. by repeat constructor.
  - exists []. simpl. rewrite app_nil_r. split; [done|constructor].
Qed.

Lemma reply_logs_no_write c op opErr : no_write (reply_logs c op opErr).
Proof.
  apply Forall_forall. intros e He. by apply reply_logs_quiet in He as [? _].
Qed.

Lemma Respond_sendReply op err c :
  snd (Respond op err c) =
    snd (sendReply (op_msg op) op (Hdr_Unique (op_msg op))
           (kernelResponse (op_data op) err) err c) /\
  (fst (Respond op err c) = Val tt \/
   exists p,
     fst (Respond op err c) = Panic p /\
     fst (sendReply (op_msg op) op (Hdr_Unique (op_msg op))
            (kernelResponse (op_data op) err) err c) = Panic p).
Proof.
  unfold Respond, mbind, M_bind.
  destruct (sendReply _ _ _ _ _ c) as [[v|p] c']; simpl; [auto|].
  split; [done|]. right. by exists p.
Qed.

(** A reply that does not panic writes to the kernel exactly once: the
    events it adds are write-free up to the reply bytes, which are followed
    by the frame's destruction only. *)
Lemma Respond_effects op err c c' :
  Respond op err c = (Val tt, c') ->
  exists pre,
    effects c' =
      effects c ++ pre ++
        [EvWriteToKernel (kernelResponse (op_data op) err); EvDestroy (op_msg op)] /\
    no_write pre /\
    (Hdr_Opcode (op_msg op) ≠ OpForget ->
     EvDelete (Hdr_Unique (op_msg op)) ∈ pre).
Proof.
  intros H.
  destruct (Respond_sendReply op err c) as [Hs Hf]. rewrite H in Hs, Hf.
  simpl in Hs. subst c'.
  destruct (sendReply_effects (op_msg op) op (Hdr_Unique (op_msg op))
              (kernelResponse (op_data op) err) err c)
    as [[Hfg He]|[(_ & f & _ & He)|(_ & _ & Hp & _)]].
  - eexists. split; [exact He|]. split; [apply reply_logs_no_write|done].
  - eexists (_ :: _ :: _). split; [exact He|]. split.
    + repeat constructor. apply reply_logs_no_write.
    + intros _. apply list_elem_of_further, list_elem_of_here.
  - exfalso. unfold Respond, mbind, M_bind in H.
    destruct (sendReply _ _ _ _ _ c) as [[v|p] c2]; simpl in *; congruence.
Qed.

Lemma only_records_no_write es : only_records es -> no_write es.
Proof.
  unfold only_records, no_write. intros H.
  eapply Forall_impl; [exact H|]. by intros e (u & f & ->).
Qed.

Lemma beginOp_ok m c :
  can_begin m c ->
  exists c1 es,
    beginOp (Hdr_Opcode m) (Hdr_Unique m) c = (Val (op_context m c), c1) /\
    cancelFuncs c1 = registered m (ctxSeq c) (cancelFuncs c) /\
    wrapped c1 = wrapped c /\
    debugLogger c1 = debugLogger c /\
    errorLogger c1 = errorLogger c /\
    effects c1 = effects c ++ es /\
    only_records es.
Proof.
  unfold registered, op_context. intros Hb.
  destruct (decide (Hdr_Opcode m = OpForget)) as [Hf|Hf].
  - rewrite Hf, beginOp_forget. eexists _, []. rewrite app_nil_r.
    repeat split. constructor.
  - destruct Hb as [Hb|Hl]; [done|].
    rewrite (beginOp_fresh _ _ _ Hf Hl). eexists _, [_]. simpl.
    repeat split. constructor; [by eexists _, _|constructor].
Qed.

Lemma beginOp_refused m c :
  ~ can_begin m c ->
  exists c1, beginOp (Hdr_Opcode m) (Hdr_Unique m) c =
               (Panic (AlreadyHaveCancelFunc (Hdr_Unique m)), c1).
Proof.
  unfold can_begin. intros H.
  destruct (decide (Hdr_Opcode m = OpForget)) as [Hf|Hf]; [tauto|].
  destruct (cancelFuncs c !! Hdr_Unique m) as [f|] eqn:Hl; [|tauto].
  rewrite (beginOp_dup _ _ _ _ Hf Hl). by eexists.
Qed.

Lemma can_begin_dec m c : can_begin m c \/ ~ can_begin m c.
Proof.
  unfold can_begin.
  destruct (decide (Hdr_Opcode m = OpForget)) as [Hf|Hf]; [tauto|].
  destruct (cancelFuncs c !! Hdr_Unique m) as [f|] eqn:Hl; [|tauto].
  right. intros [?|?]; done.
Qed.

Lemma debugLog_val opID msg c : fst (debugLog opID msg c) = Val tt.
Proof. unfold debugLog. by destruct (debugLogger c). Qed.

Lemma handleInterrupt_val fuseID c : fst (handleInterrupt fuseID c) = Val tt.
Proof.
  destruct (cancelFuncs c !! fuseID) as [f|] eqn:H.
  - by rewrite (handleInterrupt_present _ _ _ H).
  - by rewrite (handleInterrupt_absent _ _ H).
Qed.

(** ** Claims about the registry operations and the reply closure *)

(** C6: [recordCancelFunc] panics if and only if the unique ID already has
    an entry, and [finishOp] panics if and only if the opcode is not forget
    and the unique ID has no entry; in every other case each returns
    normally. *)
Theorem registry_panics_iff (opCode fuseID : Z) (f : CancelFunc) (c : Connection) :
  (panicked (fst (recordCancelFunc fuseID f c)) <->
     is_Some (cancelFuncs c !! fuseID)) /\
  (fst (recordCancelFunc fuseID f c) =
     if decide (is_Some (cancelFuncs c !! fuseID))
     then Panic (AlreadyHaveCancelFunc fuseID) else Val tt) /\
  (panicked (fst (finishOp opCode fuseID c)) <->
     opCode ≠ OpForget /\ cancelFuncs c !! fuseID = None) /\
  (fst (finishOp opCode fuseID c) =
     if decide (opCode ≠ OpForget /\ cancelFuncs c !! fuseID = None)
     then Panic (UnknownRequestID fuseID) else Val tt).
Proof.
  assert (forall A (a : A), ~ panicked (Val a)) as Hval
    by (intros A a [p Hp]; discriminate).
  assert (forall A p, @panicked A (Panic p)) as Hpan by (intros A p; by exists p).
  assert (fst (recordCancelFunc fuseID f c) =
          if decide (is_Some (cancelFuncs c !! fuseID))
          then Panic (AlreadyHaveCancelFunc fuseID) else Val tt) as Hrec.
  { destruct (cancelFuncs c !! fuseID) as [g|] eqn:Hl.
    - erewrite recordCancelFunc_dup by done.
      rewrite decide_True; [done|by eexists].
    - rewrite recordCancelFunc_fresh by done.
      rewrite decide_False; [done|by intros [x Hx]]. }
  assert (fst (finishOp opCode fuseID c) =
          if decide (opCode ≠ OpForget /\ cancelFuncs c !! fuseID = None)
          then Panic (UnknownRequestID fuseID) else Val tt) as Hfin.
  { destruct (decide (opCode = OpForget)) as [->|Hop].
    - rewrite finishOp_forget. rewrite decide_False; [done|by intros [n _]].
    - destruct (cancelFuncs c !! fuseID) as [g|] eqn:Hl.
      + erewrite finishOp_present by done.
        rewrite decide_False; [done|by intros [_ n]].
      + rewrite finishOp_absent by done. by rewrite decide_True. }
  split; [|split; [exact Hrec|split; [|exact Hfin]]].
  - rewrite Hrec. clear Hrec Hfin.
    destruct (decide (is_Some (cancelFuncs c !! fuseID))) as [y|n]; split.
    + by intros _.
    + intros _. apply Hpan.
    + intros H. by apply Hval in H.
    + intros H. by apply n in H.
  - rewrite Hfin. clear Hrec Hfin.
    destruct (decide (opCode ≠ OpForget /\ cancelFuncs c !! fuseID = None))
      as [y|n]; split.
    + by intros _.
    + intros _. apply Hpan.
    + intros H. by apply Hval in H.
    + intros H. by apply n in H.
Qed.

(** C7: [handleInterrupt] for a unique ID without a registry entry returns
    normally and leaves the connection as it was: the registry is the same,
    no cancel function is called and nothing is written to the kernel. *)
Theorem late_interrupt_silent (fuseID : Z) (c : Connection) :
  cancelFuncs c !! fuseID = None ->
  handleInterrupt fuseID c = (Val tt, c).
Proof. apply handleInterrupt_absent. Qed.

Lemma late_interrupt_silent_witness :
  handleInterrupt 4 (Sample.connection []) = (Val tt, Sample.connection []).
Proof. apply (late_interrupt_silent 4 (Sample.connection [])). reflexivity. Defined.

(** C9: the reply closure does not depend on its [fuseID] argument: two
    invocations that differ only in it have the same effects and the same
    result. *)
Theorem sendReply_ignores_fuseID (m : Message) (op : Op) (fuseID1 fuseID2 : Z)
  (replyMsg : list Byte.byte) (opErr : option error) (c : Connection) :
  sendReply m op fuseID1 replyMsg opErr c = sendReply m op fuseID2 replyMsg opErr c.
Proof. reflexivity. Qed.

(** C2: in every invocation of the reply closure the registry removal of
    [finishOp] comes before the write to the kernel: wherever the events the
    closure adds contain a write, it is the write of the reply bytes, the
    deletion of the op's unique ID (made unless the opcode is forget)
    precedes it, and no deletion follows it.  When the closure returns,
    [WriteToKernel] was called on a connection whose registry no longer
    held the unique ID of an op that is not a forget. *)
Theorem remove_before_write (m : Message) (op : Op) (fuseID : Z)
  (replyMsg : list Byte.byte) (opErr : option error) (c : Connection) :
  (exists added,
     effects (snd (sendReply m op fuseID replyMsg opErr c)) = effects c ++ added /\
     forall pre post b,
       added = pre ++ EvWriteToKernel b :: post ->
       b = replyMsg /\
       (Hdr_Opcode m ≠ OpForget -> EvDelete (Hdr_Unique m) ∈ pre) /\
       (forall e, e ∈ post -> is_delete e = false)) /\
  (panicked (fst (sendReply m op fuseID replyMsg opErr c)) \/
   exists cw,
     snd (sendReply m op fuseID replyMsg opErr c) =
       add_effect (EvDestroy m) (snd (WriteToKernel replyMsg cw)) /\
     (Hdr_Opcode m ≠ OpForget -> cancelFuncs cw !! Hdr_Unique m = None)).
Proof.
  split; [|destruct (finishOp_cases (Hdr_Opcode m) (Hdr_Unique m) c)
             as [[Hf H]|[(Hf & f & c1 & Hl & H & Hcf & Hw)|(Hf & Hl & H)]]].
  2: { right. rewrite (sendReply_ok _ _ _ _ _ _ _ H). by eexists. }
  2: { right. rewrite (sendReply_ok _ _ _ _ _ _ _ H). eexists. split; [done|].
       intros _. rewrite cancelFuncs_add_effects, Hcf. apply lookup_delete_eq. }
  2: { left. rewrite (sendReply_panic _ _ _ _ _ _ _ _ H). by eexists. }
  destruct (sendReply_effects m op fuseID replyMsg opErr c)
    as [[Hf He]|[(Hf & f & Hl & He)|(Hf & Hl & _ & He)]].
  - eexists. split; [exact He|]. intros pre post b Heq.
    apply (split_at_write _ [EvDestroy m]) in Heq as (-> & Hb & ->); try done.
    + split; [by inversion Hb|]. split; [done|].
      intros e H. apply list_elem_of_singleton in H. by subst.
    + intros e H. by apply reply_logs_quiet in H as [? _].
    + intros e H. apply list_elem_of_singleton in H. by subst.
  - eexists. split; [exact He|]. intros pre post b Heq.
    rewrite app_assoc in Heq.
    apply (split_at_write _ [EvDestroy m]) in Heq as (-> & Hb & ->); try done.
    + split; [by inversion Hb|]. split.
      * intros _. apply elem_of_app. left.
        apply list_elem_of_further, list_elem_of_here.
      * intros e H. apply list_elem_of_singleton in H. by subst.
    + intros e H. apply elem_of_app in H as [H|H].
      * apply elem_of_cons in H as [->|H]; [done|].
        apply list_elem_of_singleton in H. by subst.
      * by apply reply_logs_quiet in H as [? _].
    + intros e H. apply list_elem_of_singleton in H. by subst.
  - eexists. split; [exact He|]. intros pre post b Heq. exfalso.
    assert (EvWriteToKernel b ∈ [EvDestroy m]) as H
      by (rewrite Heq; apply elem_of_app; right; apply list_elem_of_here).
    apply list_elem_of_singleton in H. discriminate.
Qed.

(** C4: for a frame whose opcode is forget, [beginOp] returns the parent
    context and records nothing, [finishOp] removes nothing, and the reply
    closure leaves the registry as it was. *)
Theorem forget_exemption (m : Message) (op : Op) (fuseID : Z)
  (replyMsg : list Byte.byte) (opErr : option error) (c : Connection) :
  Hdr_Opcode m = OpForget ->
  beginOp (Hdr_Opcode m) (Hdr_Unique m) c = (Val (parentCtx c), c) /\
  finishOp (Hdr_Opcode m) (Hdr_Unique m) c = (Val tt, c) /\
  cancelFuncs (snd (sendReply m op fuseID replyMsg opErr c)) = cancelFuncs c /\
  effects (snd (sendReply m op fuseID replyMsg opErr c)) =
    effects c ++ reply_logs c op opErr ++ [EvWriteToKernel replyMsg; EvDestroy m].
Proof.
  intros Hf. rewrite Hf.
  split; [apply beginOp_forget|]. split; [apply finishOp_forget|].
  rewrite (sendReply_ok m op fuseID replyMsg opErr c c)
    by (rewrite Hf; apply finishOp_forget).
  simpl. rewrite cancelFuncs_add_effects, effects_add_effects.
  split; [done|]. by rewrite <- !app_assoc.
Qed.

Lemma forget_exemption_witness :
  let m := Sample.frame OpForget 12 in
  let c := Sample.connection [] in
  let op := mkOp (Sample.data UserOp "ForgetInode") CtxParent m 0 in
  beginOp (Hdr_Opcode m) (Hdr_Unique m) c = (Val (parentCtx c), c) /\
  finishOp (Hdr_Opcode m) (Hdr_Unique m) c = (Val tt, c) /\
  cancelFuncs (snd (sendReply m op 12 [] None c)) = cancelFuncs c /\
  effects (snd (sendReply m op 12 [] None c)) =
    effects c ++ reply_logs c op None ++ [EvWriteToKernel []; EvDestroy m].
Proof.
  exact (forget_exemption (Sample.frame OpForget 12)
           (mkOp (Sample.data UserOp "ForgetInode") CtxParent
              (Sample.frame OpForget 12) 0)
           12 [] None (Sample.connection []) eq_refl).
Defined.

(** ** The life of one registry entry *)

Lemma interrupts_present k fuseID f c :
  cancelFuncs c !! fuseID = Some f ->
  interrupts k fuseID c = (Val tt, add_effects (repeat (EvCancel f) k) c).
Proof.
  revert c. induction k as [|k IH]; intros c H; [done|].
  simpl. unfold mbind, M_bind.
  rewrite (handleInterrupt_present _ _ _ H). by rewrite IH.
Qed.

Lemma cancels_app f es1 es2 : cancels f (es1 ++ es2) = (cancels f es1 + cancels f es2)%nat.
Proof. unfold cancels. by rewrite filter_app, length_app. Qed.

Lemma cancels_repeat f k : cancels f (repeat (EvCancel f) k) = k.
Proof.
  unfold cancels. induction k as [|k IH]; [done|].
  simpl. rewrite filter_cons_True by done. simpl. by rewrite IH.
Qed.

(** C3, as the code has it: the reply commit of an op that is not a forget
    calls the entry's cancel function once and removes the entry, and every
    interrupt that arrives while the entry is there calls the same cancel
    function once more and leaves the entry in place.  An op interrupted
    [k] times before its reply has its cancel function called [k + 1]
    times. *)
Theorem cancel_per_commit_and_interrupt (opCode fuseID : Z) (k : nat)
  (c : Connection) :
  opCode ≠ OpForget ->
  cancelFuncs c !! fuseID = None ->
  let f := ctxSeq c in
  exists c1 c2 c3,
    beginOp opCode fuseID c = (Val (CtxWithCancel (parentCtx c) f), c1) /\
    cancelFuncs c1 !! fuseID = Some f /\
    interrupts k fuseID c1 = (Val tt, c2) /\
    cancelFuncs c2 !! fuseID = Some f /\
    finishOp opCode fuseID c2 = (Val tt, c3) /\
    cancelFuncs c3 = cancelFuncs c /\
    effects c3 =
      effects c ++ EvRecord fuseID f :: repeat (EvCancel f) k ++
        [EvCancel f; EvDelete fuseID] /\
    cancels f (repeat (EvCancel f) k ++ [EvCancel f; EvDelete fuseID]) = S k.
Proof.
  intros Hop Hl f.
  eexists _, _, _.
  split; [by apply beginOp_fresh|].
  assert (forall c', cancelFuncs c' = <[fuseID := f]> (cancelFuncs c) ->
                     cancelFuncs c' !! fuseID = Some f) as Hin
    by (intros c' ->; apply lookup_insert_eq).
  split; [by apply Hin|].
  split; [apply interrupts_present; by apply Hin|].
  split; [rewrite cancelFuncs_add_effects; by apply Hin|].
  split; [apply finishOp_present; [done|rewrite cancelFuncs_add_effects; by apply Hin]|].
  split.
  - simpl. rewrite cancelFuncs_add_effects. simpl. by apply delete_insert_id.
  - split.
    + simpl. rewrite effects_add_effects. simpl.
      by rewrite <- !app_assoc.
    + rewrite cancels_app, cancels_repeat. unfold cancels.
      rewrite filter_cons_True by done. rewrite filter_cons_False by done.
      simpl. lia.
Qed.

Lemma cancel_per_commit_and_interrupt_witness :
  exists c1 c2 c3,
    beginOp Sample.OpRead 9 (Sample.connection []) =
      (Val (CtxWithCancel CtxParent 0%nat), c1) /\
    cancelFuncs c1 !! (9 : Z) = Some 0%nat /\
    interrupts 1 9 c1 = (Val tt, c2) /\
    cancelFuncs c2 !! (9 : Z) = Some 0%nat /\
    finishOp Sample.OpRead 9 c2 = (Val tt, c3) /\
    cancelFuncs c3 = cancelFuncs (Sample.connection []) /\
    effects c3 =
      [] ++ EvRecord 9 0%nat :: repeat (EvCancel 0%nat) 1 ++
        [EvCancel 0%nat; EvDelete 9] /\
    cancels 0%nat (repeat (EvCancel 0%nat) 1 ++ [EvCancel 0%nat; EvDelete 9]) = 2%nat.
Proof.
  apply (cancel_per_commit_and_interrupt Sample.OpRead 9 1 (Sample.connection [])).
  - unfold Sample.OpRead, OpForget. lia.
  - reflexivity.
Defined.

(** C3, as the claim has it, fails: an op that is interrupted and then
    replied to has its cancel function called twice, once by
    [handleInterrupt] and once more by [finishOp]. *)
Lemma cancel_called_twice :
  exists r,
    run Sample.Convert [ARead; ARead; AReply 0 None]
      (start (Sample.connection
                [Sample.frame Sample.OpRead 9; Sample.interrupt_frame 10 9]))
      = Finished r /\
    effects (run_conn r) =
      [EvRecord 9 0%nat; EvRecord 10 1%nat; EvCancel 0%nat; EvCancel 0%nat;
       EvDelete 9; EvWriteToKernel []; EvDestroy (Sample.frame Sample.OpRead 9)] /\
    cancels 0%nat (effects (run_conn r)) = 2%nat.
Proof. eexists. split; [vm_compute; reflexivity|]. split; reflexivity. Qed.

(** ** The reader loop *)

Section Reader.

Variable Convert : Ctx -> Message -> Z -> error + OpData.

Lemma ReadOp_iter_unfold m c :
  ReadOp_iter Convert m c = ReadOp_iter_cases Convert m c.
Proof.
  unfold ReadOp_iter, ReadOp_iter_cases. unfold_M.
  destruct (beginOp _ _ _) as [[opCtx|p] cb]; [|done].
  destruct (Convert opCtx m (Protocol (wrapped cb))) as [e|d]; [done|].
  pose proof (debugLog_val (nextOpID c) (String.append "<- " (ShortDesc d)) cb) as Hd.
  destruct (debugLog _ _ cb) as [[[]|p] cl]; simpl in *; [|done].
  destruct (kind d) as [|fid|].
  - unfold mbind, M_bind.
    by destruct (Respond _ _ cl) as [[[]|p] c'].
  - unfold mbind, M_bind.
    pose proof (handleInterrupt_val fid cl) as Hh.
    by destruct (handleInterrupt fid cl) as [[[]|p] c'].
  - done.
Qed.

Lemma ReadOp_iter_incoming m c :
  incoming (wrapped (snd (ReadOp_iter Convert m c))) = incoming (wrapped c).
Proof.
  rewrite ReadOp_iter_unfold. unfold ReadOp_iter_cases.
  pose proof (beginOp_incoming (Hdr_Opcode m) (Hdr_Unique m)
                (set_nextOpID ((nextOpID c + 1) mod 2 ^ 32) c)) as Hb.
  destruct (beginOp _ _ _) as [[opCtx|p] cb]; simpl in Hb; [|done].
  destruct (Convert opCtx m (Protocol (wrapped cb))) as [e|d]; [done|].
  pose proof (debugLog_frame (nextOpID c) (String.append "<- " (ShortDesc d)) cb)
    as [_ Hd].
  destruct (kind d) as [|fid|]; simpl.
  - match goal with |- context [Respond ?o ?e ?x] =>
      pose proof (Respond_incoming o e x) as Hr;
      destruct (Respond o e x) as [[[]|p] c'] end;
      simpl in *; by rewrite Hr, Hd.
  - destruct (handleInterrupt_frame fid
                (snd (debugLog (nextOpID c) (String.append "<- " (ShortDesc d)) cb)))
      as [_ Hh].
    by rewrite Hh, Hd.
  - by rewrite Hd.
Qed.

Lemma ReadOp_loop_unfold fuel c :
  ReadOp_loop Convert fuel c =
    match ReadMessage c with
    | (Val (inl err), c0) => (Val (inl err), c0)
    | (Val (inr m), c0) =>
        match ReadOp_iter Convert m c0 with
        | (Val (Some res), c1) => (Val res, c1)
        | (Val None, c1) =>
            match fuel with
            | O => (Val (inl io_EOF), c1)
            | S fuel' => ReadOp_loop Convert fuel' c1
            end
        | (Panic p, c1) => (Panic p, c1)
        end
    | (Panic p, c0) => (Panic p, c0)
    end.
Proof.
  destruct fuel; simpl; unfold mbind, M_bind;
    destruct (ReadMessage c) as [[[e|m]|p] c0]; try done;
    destruct (ReadOp_iter Convert m c0) as [[[res|]|p] c1]; done.
Qed.

(** The budget of iterations is never used up: any budget of at least
    [length incoming] gives the same result. *)
Lemma ReadOp_loop_fuel n : forall c fuel1 fuel2,
  length (incoming (wrapped c)) = n ->
  (n <= fuel1)%nat -> (n <= fuel2)%nat ->
  ReadOp_loop Convert fuel1 c = ReadOp_loop Convert fuel2 c.
Proof.
  induction n as [|n IH]; intros c fuel1 fuel2 Hn H1 H2;
    rewrite (ReadOp_loop_unfold fuel1), (ReadOp_loop_unfold fuel2);
    unfold ReadMessage;
    destruct (incoming (wrapped c)) as [|r rest] eqn:Hin; try done.
  destruct r as [e|m]; [done|].
  pose proof (ReadOp_iter_incoming m (set_incoming rest c)) as Hi.
  destruct (ReadOp_iter Convert m (set_incoming rest c)) as [[[res|]|p] c1];
    try done.
  destruct fuel1 as [|fuel1], fuel2 as [|fuel2]; try (simpl in *; lia).
  apply IH; simpl in *; [|lia|lia].
  rewrite Hi. lia.
Qed.

Lemma ReadOp_eof c :
  incoming (wrapped c) = [] -> ReadOp Convert c = (Val (inl io_EOF), c).
Proof.
  intros H. unfold ReadOp. rewrite ReadOp_loop_unfold. unfold ReadMessage.
  by rewrite H.
Qed.

Lemma ReadOp_read_error c e rest :
  incoming (wrapped c) = inl e :: rest ->
  ReadOp Convert c = (Val (inl e), set_incoming rest c).
Proof.
  intros H. unfold ReadOp. rewrite ReadOp_loop_unfold. unfold ReadMessage.
  by rewrite H.
Qed.

(** One turn of the loop on the frame at the head of the stream. *)
Lemma ReadOp_frame c m rest :
  incoming (wrapped c) = inr m :: rest ->
  ReadOp Convert c =
    match ReadOp_iter Convert m (set_incoming rest c) with
    | (Val (Some res), c1) => (Val res, c1)
    | (Val None, c1) => ReadOp Convert c1
    | (Panic p, c1) => (Panic p, c1)
    end.
Proof.
  intros H. unfold ReadOp at 1. rewrite ReadOp_loop_unfold. unfold ReadMessage.
  rewrite H.
  pose proof (ReadOp_iter_incoming m (set_incoming rest c)) as Hi.
  destruct (ReadOp_iter Convert m (set_incoming rest c)) as [[[res|]|p] c1];
    try done.
  simpl in *. unfold ReadOp. rewrite Hi. done.
Qed.

(** A frame that fails to convert: the error is returned with its
    context; apart from what [beginOp] recorded nothing happened. *)
Lemma iter_convert_error m c e :
  can_begin m c ->
  Convert (op_context m c) m (Protocol (wrapped c)) = inl e ->
  exists c1 es,
    ReadOp_iter Convert m c =
      (Val (Some (inl (Errorf "fuseops.Convert: " e))), c1) /\
    cancelFuncs c1 = registered m (ctxSeq c) (cancelFuncs c) /\
    effects c1 = effects c ++ es /\ only_records es /\
    wrapped c1 = wrapped c.
Proof.
  intros Hb Hc. rewrite ReadOp_iter_unfold. unfold ReadOp_iter_cases.
  destruct (beginOp_ok m (set_nextOpID ((nextOpID c + 1) mod 2 ^ 32) c) Hb)
    as (c1 & es & -> & Hcf & Hw & _ & _ & He & Hes).
  rewrite Hw. simpl. change (op_context m (set_nextOpID _ c)) with (op_context m c).
  rewrite Hc. by eexists _, _.
Qed.

(** A frame that converts to an op for the caller. *)
Lemma iter_user m c d :
  can_begin m c ->
  Convert (op_context m c) m (Protocol (wrapped c)) = inr d ->
  kind d = UserOp ->
  exists c1 es,
    ReadOp_iter Convert m c =
      (Val (Some (inr (mkOp d (op_context m c) m (nextOpID c)))), c1) /\
    cancelFuncs c1 = registered m (ctxSeq c) (cancelFuncs c) /\
    effects c1 = effects c ++ es /\ no_write es.
Proof.
  intros Hb Hc Hk. rewrite ReadOp_iter_unfold. unfold ReadOp_iter_cases.
  destruct (beginOp_ok m (set_nextOpID ((nextOpID c + 1) mod 2 ^ 32) c) Hb)
    as (c1 & es & -> & Hcf & Hw & _ & _ & He & Hes).
  rewrite Hw. simpl. change (op_context m (set_nextOpID _ c)) with (op_context m c).
  rewrite Hc, Hk.
  destruct (debugLog_frame (nextOpID c) (String.append "<- " (ShortDesc d)) c1)
    as [Hdc Hdw].
  destruct (debugLog_effects (nextOpID c) (String.append "<- " (ShortDesc d)) c1)
    as (es' & He' & Hes').
  eexists _, (es ++ es'). split; [done|].
  rewrite Hdc, He', He, Hcf. simpl. rewrite <- app_assoc.
  repeat split. apply Forall_app. split; [by apply only_records_no_write|done].
Qed.

(** A frame that converts to a statfs op: the loop goes on, the registry
    is as before, and the reply to [Respond(nil)] was written once. *)
Lemma iter_statfs m c d :
  can_begin m c ->
  Convert (op_context m c) m (Protocol (wrapped c)) = inr d ->
  kind d = InternalStatFSOp ->
  exists c1 pre,
    ReadOp_iter Convert m c = (Val None, c1) /\
    cancelFuncs c1 = cancelFuncs c /\
    effects c1 =
      effects c ++ pre ++ [EvWriteToKernel (kernelResponse d None); EvDestroy m] /\
    no_write pre /\
    (Hdr_Opcode m ≠ OpForget -> EvDelete (Hdr_Unique m) ∈ pre).
Proof.
  intros Hb Hc Hk. rewrite ReadOp_iter_unfold. unfold ReadOp_iter_cases.
  destruct (beginOp_ok m (set_nextOpID ((nextOpID c + 1) mod 2 ^ 32) c) Hb)
    as (c1 & es & -> & Hcf & Hw & _ & _ & He & Hes).
  rewrite Hw. simpl. change (op_context m (set_nextOpID _ c)) with (op_context m c).
  rewrite Hc, Hk.
  destruct (debugLog_frame (nextOpID c) (String.append "<- " (ShortDesc d)) c1)
    as [Hdc Hdw].
  destruct (debugLog_effects (nextOpID c) (String.append "<- " (ShortDesc d)) c1)
    as (es' & He' & Hes').
  set (cl := snd (debugLog (nextOpID c) (String.append "<- " (ShortDesc d)) c1)) in *.
  set (op := mkOp d (op_context m c) m (nextOpID c)).
  destruct (Respond_cases op None cl)
    as [(Hf & c2 & Hr & Hcf2 & _)|[(Hf & f & c2 & Hl & Hr & Hcf2 & _)|(Hf & Hl & _)]];
    simpl in Hf.
  - rewrite Hr. destruct (Respond_effects _ _ _ _ Hr) as (pre & Hpre & Hnw & _).
    exists c2, (es ++ es' ++ pre). split; [done|]. split.
    + rewrite Hcf2, Hdc, Hcf. unfold registered. by rewrite decide_True.
    + rewrite Hpre, He', He. simpl. rewrite <- !app_assoc. split; [done|].
      split; [|done].
      apply Forall_app. split; [by apply only_records_no_write|].
      apply Forall_app. done.
  - rewrite Hr. destruct (Respond_effects _ _ _ _ Hr) as (pre & Hpre & Hnw & Hdel).
    exists c2, (es ++ es' ++ pre). split; [done|]. split.
    + rewrite Hcf2, Hdc, Hcf. unfold registered. rewrite decide_False by done.
      simpl. apply delete_insert_id.
      destruct Hb as [Hb|Hb]; [done|exact Hb].
    + rewrite Hpre, He', He. simpl. rewrite <- !app_assoc. split; [done|].
      split.
      * apply Forall_app. split; [by apply only_records_no_write|].
        apply Forall_app. done.
      * intros _. apply elem_of_app. right. apply elem_of_app. right.
        by apply Hdel.
  - exfalso. simpl in Hl. rewrite Hdc, Hcf in Hl. unfold registered in Hl.
    rewrite decide_False in Hl by done. by rewrite lookup_insert_eq in Hl.
Qed.

(** A frame that converts to an interrupt op: the loop goes on and nothing
    is written to the kernel, whether or not the request to interrupt still
    has an entry.  What [beginOp] recorded for the interrupt frame itself
    stays in the registry. *)
Lemma iter_interrupt m c d fid :
  can_begin m c ->
  Convert (op_context m c) m (Protocol (wrapped c)) = inr d ->
  kind d = InternalInterruptOp fid ->
  exists c1 es,
    ReadOp_iter Convert m c = (Val None, c1) /\
    cancelFuncs c1 = registered m (ctxSeq c) (cancelFuncs c) /\
    effects c1 = effects c ++ es /\ no_write es.
Proof.
  intros Hb Hc Hk. rewrite ReadOp_iter_unfold. unfold ReadOp_iter_cases.
  destruct (beginOp_ok m (set_nextOpID ((nextOpID c + 1) mod 2 ^ 32) c) Hb)
    as (c1 & es & -> & Hcf & Hw & _ & _ & He & Hes).
  rewrite Hw. simpl. change (op_context m (set_nextOpID _ c)) with (op_context m c).
  rewrite Hc, Hk.
  destruct (debugLog_frame (nextOpID c) (String.append "<- " (ShortDesc d)) c1)
    as [Hdc Hdw].
  destruct (debugLog_effects (nextOpID c) (String.append "<- " (ShortDesc d)) c1)
    as (es' & He' & Hes').
  set (cl := snd (debugLog (nextOpID c) (String.append "<- " (ShortDesc d)) c1)) in *.
  destruct (handleInterrupt_frame fid cl) as [Hhc _].
  destruct (handleInterrupt_effects fid cl) as (es2 & He2 & Hes2).
  eexists _, (es ++ es' ++ es2). split; [done|].
  rewrite Hhc, Hdc, Hcf, He2, He', He. simpl. rewrite <- !app_assoc.
  repeat split. apply Forall_app. split; [by apply only_records_no_write|].
  by apply Forall_app.
Qed.





End Reader.




(** ** Reads and replies in any order *)

Lemma can_begin_registry m c c' :
  cancelFuncs c' = cancelFuncs c -> can_begin m c -> can_begin m c'.
Proof. unfold can_begin. by intros ->. Qed.

Lemma pending_returned r c' op i o :
  (forall j, j ∈ run_replied r -> lt j (length (run_ops r))) ->
  pending {| run_conn := c'; run_ops := run_ops r ++ [op];
             run_replied := run_replied r |} i o <->
  pending r i o \/
  (i = length (run_ops r) /\ o = op /\ Hdr_Opcode (op_msg op) ≠ OpForget).
Proof.
  intros Hbound. unfold pending. simpl. rewrite lookup_snoc_Some. split.
  - intros ([[_ Hl]|[-> ->]] & Hn & Hf); [left|right]; done.
  - intros [(Hl & Hn & Hf)|(-> & -> & Hf)].
    + split; [|done]. left. split; [|done]. by eapply lookup_lt_Some.
    + split; [by right|]. split; [|done].
      intros Hin. apply Hbound in Hin. lia.
Qed.

Lemma pending_replied r c' i j o :
  pending {| run_conn := c'; run_ops := run_ops r;
             run_replied := i :: run_replied r |} j o <->
  pending r j o /\ j ≠ i.
Proof.
  unfold pending. simpl. rewrite not_elem_of_cons. tauto.
Qed.

Lemma registry_matches_returned r c' op f :
  registry_matches r ->
  can_begin (op_msg op) (run_conn r) ->
  cancelFuncs c' = registered (op_msg op) f (cancelFuncs (run_conn r)) ->
  registry_matches {| run_conn := c'; run_ops := run_ops r ++ [op];
                      run_replied := run_replied r |}.
Proof.
  intros (Hm & Hd & Hb) Hcan Hcf. unfold registered in Hcf.
  split; [|split].
  - intros u. simpl. rewrite Hcf.
    destruct (decide (Hdr_Opcode (op_msg op) = OpForget)) as [Hf|Hf].
    + rewrite Hm. split.
      * intros (i & o & Hp & Hu). exists i, o. split; [|done].
        apply pending_returned; auto.
      * intros (i & o & Hp & Hu). apply pending_returned in Hp; [|done].
        destruct Hp as [Hp|(_ & _ & Hn)]; [|done]. by exists i, o.
    + destruct Hcan as [Hcan|Hcan]; [done|].
      rewrite lookup_insert_is_Some, Hm. split.
      * intros [<-|[Hne (i & o & Hp & Hu)]].
        -- exists (length (run_ops r)), op. split; [|done].
           apply pending_returned; [done|]. by right.
        -- exists i, o. split; [|done]. apply pending_returned; auto.
      * intros (i & o & Hp & Hu). apply pending_returned in Hp; [|done].
        destruct (decide (Hdr_Unique (op_msg op) = u)) as [|Hne]; [by left|].
        right. split; [done|].
        destruct Hp as [Hp|(_ & -> & _)]; [by exists i, o|done].
  - intros i j o o' Hp Hp' Hu.
    apply pending_returned in Hp; [|done].
    apply pending_returned in Hp'; [|done].
    destruct Hp as [Hp|(-> & -> & Hf)], Hp' as [Hp'|(-> & -> & Hf')].
    + by eapply Hd.
    + exfalso. destruct Hcan as [Hcan|Hcan]; [done|].
      assert (is_Some (cancelFuncs (run_conn r) !! Hdr_Unique (op_msg op))) as [x Hx]
        by (apply Hm; by exists i, o).
      congruence.
    + exfalso. destruct Hcan as [Hcan|Hcan]; [done|].
      assert (is_Some (cancelFuncs (run_conn r) !! Hdr_Unique (op_msg op))) as [x Hx]
        by (apply Hm; by exists j, o').
      congruence.
    + done.
  - intros i Hi. simpl in *. rewrite length_app. simpl.
    apply Hb in Hi. lia.
Qed.

Lemma registry_matches_replied r c' i op :
  registry_matches r ->
  run_ops r !! i = Some op ->
  i ∉ run_replied r ->
  (Hdr_Opcode (op_msg op) = OpForget /\ cancelFuncs c' = cancelFuncs (run_conn r) \/
   Hdr_Opcode (op_msg op) ≠ OpForget /\
   cancelFuncs c' = delete (Hdr_Unique (op_msg op)) (cancelFuncs (run_conn r))) ->
  registry_matches {| run_conn := c'; run_ops := run_ops r;
                      run_replied := i :: run_replied r |}.
Proof.
  intros (Hm & Hd & Hb) Hop Hnot Hcf. split; [|split].
  - intros u. simpl. destruct Hcf as [[Hf ->]|[Hf ->]].
    + rewrite Hm. split.
      * intros (j & o & Hp & Hu). exists j, o. split; [|done].
        apply pending_replied. split; [done|].
        intros ->. destruct Hp as (Hl & _ & Hn). congruence.
      * intros (j & o & Hp & Hu). apply pending_replied in Hp as [Hp _].
        by exists j, o.
    + rewrite lookup_delete_is_Some, Hm. split.
      * intros [Hne (j & o & Hp & Hu)]. exists j, o. split; [|done].
        apply pending_replied. split; [done|].
        intros ->. destruct Hp as (Hl & _ & _). congruence.
      * intros (j & o & Hp & Hu). apply pending_replied in Hp as [Hp Hne].
        split; [|by exists j, o].
        intros Heq. apply Hne. symmetry.
        apply (Hd i j op o); [by repeat split|done|congruence].
  - intros j k o o' Hp Hp' Hu.
    apply pending_replied in Hp as [Hp _].
    apply pending_replied in Hp' as [Hp' _]. by eapply Hd.
  - intros j Hj. simpl in *. apply elem_of_cons in Hj as [->|Hj].
    + by eapply lookup_lt_Some.
    + by apply Hb.
Qed.

Section Pairing.

Variable Convert : Ctx -> Message -> Z -> error + OpData.

Lemma iter_refused m c :
  ~ can_begin m c ->
  exists c1, ReadOp_iter Convert m c =
               (Panic (AlreadyHaveCancelFunc (Hdr_Unique m)), c1).
Proof.
  intros H. rewrite ReadOp_iter_unfold. unfold ReadOp_iter_cases.
  destruct (beginOp_refused m (set_nextOpID ((nextOpID c + 1) mod 2 ^ 32) c))
    as [c1 ->]; [done|]. by eexists.
Qed.

(** What a call of [ReadOp] that returns does to the registry, when the
    frames still to come are plain. *)
Lemma ReadOp_plain frames : forall c res c',
  incoming (wrapped c) = frames ->
  plain_frames Convert frames ->
  ReadOp Convert c = (Val res, c') ->
  (exists k, incoming (wrapped c') = drop k frames) /\
  match res with
  | inl _ => cancelFuncs c' = cancelFuncs c
  | inr op =>
      can_begin (op_msg op) c /\
      exists f, cancelFuncs c' = registered (op_msg op) f (cancelFuncs c)
  end.
Proof.
  induction frames as [|[e|m] rest IH]; intros c res c' Hin Hplain.
  - rewrite (ReadOp_eof Convert c Hin). intros H. inversion H; subst.
    split; [exists 0%nat; by rewrite Hin|done].
  - rewrite (ReadOp_read_error Convert c e rest Hin). intros H.
    inversion H; subst. split; [by exists 1%nat|done].
  - rewrite (ReadOp_frame Convert c m rest Hin).
    set (c0 := set_incoming rest c).
    destruct (Hplain m (list_elem_of_here _ _) (op_context m c0)
                (Protocol (wrapped c0))) as (d & Hc & Hk).
    destruct (can_begin_dec m c0) as [Hb|Hb];
      [|destruct (iter_refused m c0 Hb) as [c1 ->]; done].
    destruct Hk as [Hk|Hk].
    + destruct (iter_user Convert m c0 d Hb Hc Hk) as (c1 & es & Hi & Hcf & _).
      pose proof (ReadOp_iter_incoming Convert m c0) as Hinc.
      rewrite Hi in *. simpl in Hinc. intros H. inversion H; subst.
      split; [by exists 1%nat|]. simpl. split; [exact Hb|by eexists].
    + destruct (iter_statfs Convert m c0 d Hb Hc Hk) as (c1 & pre & Hi & Hcf & _).
      pose proof (ReadOp_iter_incoming Convert m c0) as Hinc.
      rewrite Hi in *. simpl in Hinc, Hcf. intros H.
      destruct (IH c1 res c' Hinc) as [[k Hk'] Hres]; [|done|].
      { intros m' Hm'. apply Hplain. by apply list_elem_of_further. }
      split; [by exists (S k)|].
      destruct res as [e|op]; [by rewrite Hres|].
      destruct Hres as [Hb' [f Hf]]. split.
      * by apply (can_begin_registry _ c1).
      * exists f. by rewrite Hf, Hcf.
Qed.

Lemma step_matches a r r' :
  plain_frames Convert (incoming (wrapped (run_conn r))) ->
  registry_matches r ->
  step Convert a r = Finished r' ->
  plain_frames Convert (incoming (wrapped (run_conn r'))) /\
  registry_matches r'.
Proof.
  intros Hplain Hm. destruct a as [|i err]; simpl.
  - destruct (ReadOp Convert (run_conn r)) as [[[e|op]|p] c'] eqn:Hr; [| |done].
    + destruct (ReadOp_plain _ _ _ _ eq_refl Hplain Hr) as [[k Hk] Hcf].
      intros H. inversion H; subst. simpl. split.
      * rewrite Hk. intros m Hin. apply Hplain.
        by eapply subseteq_drop.
      * destruct Hm as (H1 & H2 & H3). split; [|split]; simpl.
        -- intros u. rewrite Hcf. apply H1.
        -- exact H2.
        -- exact H3.
    + destruct (ReadOp_plain _ _ _ _ eq_refl Hplain Hr)
        as [[k Hk] [Hcan [f Hcf]]].
      intros H. inversion H; subst. simpl. split.
      * rewrite Hk. intros m Hin. apply Hplain.
        by eapply subseteq_drop.
      * by eapply registry_matches_returned.
  - destruct (decide (i ∈ run_replied r)) as [|Hnot]; [done|].
    destruct (run_ops r !! i) as [op|] eqn:Hop; [|done].
    pose proof (Respond_incoming op err (run_conn r)) as Hinc.
    destruct (Respond_cases op err (run_conn r))
      as [(Hf & c' & Hr & Hcf & _)|[(Hf & f & c' & _ & Hr & Hcf & _)|(_ & _ & Hr)]].
    + rewrite Hr in *. intros H. inversion H; subst. simpl in *. split.
      * by rewrite Hinc.
      * eapply registry_matches_replied; eauto.
    + rewrite Hr in *. intros H. inversion H; subst. simpl in *. split.
      * by rewrite Hinc.
      * eapply registry_matches_replied; eauto.
    + destruct (Respond op err (run_conn r)) as [[v|p] c']; simpl in *; done.
Qed.

Lemma run_matches sched : forall r r',
  plain_frames Convert (incoming (wrapped (run_conn r))) ->
  registry_matches r ->
  run Convert sched r = Finished r' ->
  registry_matches r'.
Proof.
  induction sched as [|a sched IH]; intros r r' Hplain Hm; simpl.
  - intros H. by inversion H; subst.
  - destruct (step Convert a r) as [r1| |] eqn:Hs; [|done|done].
    destruct (step_matches a r r1 Hplain Hm Hs) as [Hplain1 Hm1].
    by apply IH.
Qed.

Lemma start_matches c : cancelFuncs c = ∅ -> registry_matches (start c).
Proof.
  intros He. unfold registry_matches, pending. simpl. split; [|split].
  - intros u. rewrite He, lookup_empty. split.
    + by intros [x Hx].
    + by intros (i & op & (Hl & _) & _).
  - by intros i j op op' (Hl & _).
  - intros i Hi. by apply elem_of_nil in Hi.
Qed.

(** C1, as the code has it.  When the reply closure of an op that is not
    a forget has run, the registry has no entry for the op's unique ID.
    When every frame read converts to an op for the caller or to a statfs
    op, then after any interleaving of reads and replies that ran without
    a panic the registry holds exactly the unique IDs of the ops that are
    not forgets and still await their reply; it is empty once every op
    that was returned has been replied to. *)
Theorem registry_pairing (c : Connection) (sched : list Action) (r : Run) :
  cancelFuncs c = ∅ ->
  plain_frames Convert (incoming (wrapped c)) ->
  run Convert sched (start c) = Finished r ->
  (forall r0 r1 i err op,
     step Convert (AReply i err) r0 = Finished r1 ->
     run_ops r0 !! i = Some op ->
     Hdr_Opcode (op_msg op) ≠ OpForget ->
     cancelFuncs (run_conn r1) !! Hdr_Unique (op_msg op) = None) /\
  (forall u, is_Some (cancelFuncs (run_conn r) !! u) <->
             exists i op, pending r i op /\ Hdr_Unique (op_msg op) = u) /\
  (forall i op err,
     run_ops r !! i = Some op -> i ∉ run_replied r ->
     exists r', step Convert (AReply i err) r = Finished r') /\
  (all_replied r -> cancelFuncs (run_conn r) = ∅).
Proof.
  intros He Hplain Hrun.
  pose proof (run_matches sched (start c) r Hplain (start_matches c He) Hrun)
    as (Hm & Hd & Hb).
  split; [|split; [exact Hm|split]].
  - intros r0 r1 i err op. simpl.
    destruct (decide (i ∈ run_replied r0)); [done|].
    intros Hs Hop Hf. rewrite Hop in Hs.
    destruct (Respond_cases op err (run_conn r0))
      as [(Hf' & _)|[(_ & f & c' & _ & Hr & Hcf & _)|(_ & _ & Hr)]]; [done| |].
    + rewrite Hr in Hs. inversion Hs; subst. simpl. rewrite Hcf.
      apply lookup_delete_eq.
    + destruct (Respond op err (run_conn r0)) as [[v|p] c']; simpl in *; done.
  - intros i op err Hop Hn. simpl.
    destruct (decide (i ∈ run_replied r)); [done|]. rewrite Hop.
    destruct (Respond_cases op err (run_conn r))
      as [(_ & c' & Hr & _)|[(_ & f & c' & _ & Hr & _)|(Hf & Hl & _)]].
    + rewrite Hr. by eexists.
    + rewrite Hr. by eexists.
    + exfalso.
      assert (is_Some (cancelFuncs (run_conn r) !! Hdr_Unique (op_msg op)))
        as [x Hx] by (apply Hm; by exists i, op).
      congruence.
  - intros Hall. apply map_eq. intros u. rewrite lookup_empty.
    destruct (cancelFuncs (run_conn r) !! u) as [f|] eqn:Hl; [|done].
    exfalso. assert (is_Some (cancelFuncs (run_conn r) !! u)) as Hs by by eexists.
    apply Hm in Hs as (i & op & (Hop & Hn & _) & _).
    apply Hn, Hall. by eapply lookup_lt_Some.
Qed.

End Pairing.

Lemma sample_plain_frames :
  plain_frames Sample.Convert
    (incoming (wrapped (Sample.connection
       [Sample.frame OpStatfs 1; Sample.frame Sample.OpLookup 2;
        Sample.frame OpForget 3; Sample.frame Sample.OpRead 4]))).
Proof.
  intros m Hin ctx proto. simpl in Hin.
  repeat (apply elem_of_cons in Hin as [Heq|Hin];
          [inversion Heq; subst; eexists; split; [reflexivity|auto]|]).
  by apply elem_of_nil in Hin.
Defined.

Lemma registry_pairing_witness :
  exists r,
    run Sample.Convert
      [ARead; ARead; AReply 1 None; ARead; AReply 0 (Some "EIO"%string); AReply 2 None]
      (start (Sample.connection
         [Sample.frame OpStatfs 1; Sample.frame Sample.OpLookup 2;
          Sample.frame OpForget 3; Sample.frame Sample.OpRead 4])) = Finished r /\
    length (run_ops r) = 3%nat /\
    ((forall r0 r1 i err op,
        step Sample.Convert (AReply i err) r0 = Finished r1 ->
        run_ops r0 !! i = Some op ->
        Hdr_Opcode (op_msg op) ≠ OpForget ->
        cancelFuncs (run_conn r1) !! Hdr_Unique (op_msg op) = None) /\
     (forall u, is_Some (cancelFuncs (run_conn r) !! u) <->
                exists i op, pending r i op /\ Hdr_Unique (op_msg op) = u) /\
     (forall i op err,
        run_ops r !! i = Some op -> i ∉ run_replied r ->
        exists r', step Sample.Convert (AReply i err) r = Finished r') /\
     (all_replied r -> cancelFuncs (run_conn r) = ∅)).
Proof.
  eexists. split; [vm_compute; reflexivity|]. split; [reflexivity|].
  apply (registry_pairing Sample.Convert
           (Sample.connection
              [Sample.frame OpStatfs 1; Sample.frame Sample.OpLookup 2;
               Sample.frame OpForget 3; Sample.frame Sample.OpRead 4])
           [ARead; ARead; AReply 1 None; ARead; AReply 0 (Some "EIO"%string);
            AReply 2 None]).
  - reflexivity.
  - exact sample_plain_frames.
  - vm_compute. reflexivity.
Defined.

(** C1, as the claim has it, fails twice.  The reply closure of a forget
    leaves the registry alone, so after it has run the registry can hold an
    entry for the forget's unique ID: that of a later op which reuses the
    ID.  And [beginOp] records an entry for every frame that is not a
    forget, also for an interrupt frame, whose reply closure never runs:
    once every op that was returned has been replied to, the entry of the
    interrupt frame is still there. *)
Lemma registry_pairing_fails :
  (exists r op,
     run Sample.Convert [ARead; ARead; AReply 0 None]
       (start (Sample.connection
          [Sample.frame OpForget 12; Sample.frame Sample.OpLookup 12])) = Finished r /\
     run_ops r !! 0%nat = Some op /\
     Hdr_Unique (op_msg op) = 12 /\
     run_replied r = [0%nat] /\
     cancelFuncs (run_conn r) !! (12 : Z) = Some 0%nat) /\
  (exists r,
     run Sample.Convert [ARead; ARead; AReply 0 None]
       (start (Sample.connection
          [Sample.frame Sample.OpRead 9; Sample.interrupt_frame 10 9])) = Finished r /\
     all_replied r /\
     cancelFuncs (run_conn r) !! (10 : Z) = Some 1%nat /\
     cancelFuncs (run_conn r) ≠ ∅).
Proof.
  split.
  - eexists _, _. split; [vm_compute; reflexivity|]. repeat split; reflexivity.
  - eexists. split; [vm_compute; reflexivity|]. split; [|split].
    + intros i Hi. simpl in Hi.
      assert (i = 0%nat) as -> by lia. apply list_elem_of_here.
    + reflexivity.
    + intros He. apply (f_equal (fun fs => fs !! (10 : Z))) in He.
      vm_compute in He. discriminate.
Qed.

(** ** What a step leaves alone *)

Lemma same_config_refl c : same_config c c.
Proof. by repeat split. Qed.

Lemma same_config_trans c1 c2 c3 :
  same_config c1 c2 -> same_config c2 c3 -> same_config c1 c3.
Proof.
  unfold same_config. intros (?&?&?&?&?) (?&?&?&?&?).
  repeat split; congruence.
Qed.

Lemma add_effects_fields es c :
  same_config c (add_effects es c) /\
  nextOpID (add_effects es c) = nextOpID c /\
  ctxSeq (add_effects es c) = ctxSeq c.
Proof.
  revert c. induction es as [|e es IH]; intros c; simpl.
  - split; [apply same_config_refl|done].
  - destruct (IH (add_effect e c)) as ((?&?&?&?&?) & ? & ?).
    repeat split; simpl in *; congruence.
Qed.

Lemma beginOp_fields opCode fuseID c :
  same_config c (snd (beginOp opCode fuseID c)) /\
  nextOpID (snd (beginOp opCode fuseID c)) = nextOpID c /\
  (ctxSeq c <= ctxSeq (snd (beginOp opCode fuseID c)))%nat.
Proof.
  unfold beginOp. unfold_M. case_decide.
  - unfold WithCancel, recordCancelFunc. simpl.
    destruct (cancelFuncs c !! fuseID); simpl; repeat split; lia.
  - simpl. repeat split. lia.
Qed.

Lemma debugLog_fields opID msg c :
  same_config c (snd (debugLog opID msg c)) /\
  nextOpID (snd (debugLog opID msg c)) = nextOpID c /\
  ctxSeq (snd (debugLog opID msg c)) = ctxSeq c.
Proof. unfold debugLog. destruct (debugLogger c); by repeat split. Qed.

Lemma handleInterrupt_fields fuseID c :
  same_config c (snd (handleInterrupt fuseID c)) /\
  nextOpID (snd (handleInterrupt fuseID c)) = nextOpID c /\
  ctxSeq (snd (handleInterrupt fuseID c)) = ctxSeq c.
Proof.
  destruct (cancelFuncs c !! fuseID) as [f|] eqn:H.
  - rewrite (handleInterrupt_present _ _ _ H). by repeat split.
  - rewrite (handleInterrupt_absent _ _ H). by repeat split.
Qed.

Lemma sendReply_fields m op fuseID b opErr c :
  same_config c (snd (sendReply m op fuseID b opErr c)) /\
  nextOpID (snd (sendReply m op fuseID b opErr c)) = nextOpID c /\
  ctxSeq (snd (sendReply m op fuseID b opErr c)) = ctxSeq c.
Proof.
  destruct (decide (Hdr_Opcode m = OpForget)) as [Hf|Hf].
  - rewrite (sendReply_ok m op fuseID b opErr c c)
      by (rewrite Hf; apply finishOp_forget).
    destruct (add_effects_fields (reply_logs c op opErr) c) as ((?&?&?&?&?) & ? & ?).
    simpl. rewrite wrapped_add_effects. by repeat split.
  - destruct (cancelFuncs c !! Hdr_Unique m) as [f|] eqn:Hl.
    + rewrite (sendReply_ok _ _ _ _ _ _ _ (finishOp_present _ _ _ _ Hf Hl)).
      match goal with |- context [add_effects ?es ?x] =>
        destruct (add_effects_fields es x) as ((?&?&?&?&?) & ? & ?) end.
      simpl in *. rewrite wrapped_add_effects. by repeat split.
    + rewrite (sendReply_panic _ _ _ _ _ _ _ _ (finishOp_absent _ _ _ Hf Hl)).
      by repeat split.
Qed.

Lemma Respond_fields op err c :
  same_config c (snd (Respond op err c)) /\
  nextOpID (snd (Respond op err c)) = nextOpID c /\
  ctxSeq (snd (Respond op err c)) = ctxSeq c.
Proof.
  destruct (Respond_sendReply op err c) as [-> _]. apply sendReply_fields.
Qed.

(** ** The reader loop, frame by frame *)

Section ReaderFrames.

Variable Convert : Ctx -> Message -> Z -> error + OpData.

(** One iteration takes one op ID, whatever becomes of the frame. *)
Lemma ReadOp_iter_fields m c :
  same_config c (snd (ReadOp_iter Convert m c)) /\
  nextOpID (snd (ReadOp_iter Convert m c)) = (nextOpID c + 1) mod 2 ^ 32 /\
  (ctxSeq c <= ctxSeq (snd (ReadOp_iter Convert m c)))%nat.
Proof.
  rewrite ReadOp_iter_unfold. unfold ReadOp_iter_cases.
  pose proof (beginOp_fields (Hdr_Opcode m) (Hdr_Unique m)
                (set_nextOpID ((nextOpID c + 1) mod 2 ^ 32) c)) as (Hb1 & Hb2 & Hb3).
  destruct (beginOp _ _ _) as [[opCtx|p] cb]; simpl in Hb1, Hb2, Hb3; [|done].
  destruct (Convert opCtx m (Protocol (wrapped cb))) as [e|d]; [done|].
  pose proof (debugLog_fields (nextOpID c) (String.append "<- " (ShortDesc d)) cb)
    as (Hd1 & Hd2 & Hd3).
  set (cl := snd (debugLog (nextOpID c) (String.append "<- " (ShortDesc d)) cb)) in *.
  assert (same_config c cl) as Hcl
    by (eapply same_config_trans; [exact Hb1|exact Hd1]).
  destruct (kind d) as [|fid|]; simpl.
  - match goal with |- context [Respond ?o ?e ?x] =>
      pose proof (Respond_fields o e x) as (Hr1 & Hr2 & Hr3);
      destruct (Respond o e x) as [[[]|p] c'] end; simpl in *;
      (split; [by eapply same_config_trans|split; [congruence|lia]]).
  - pose proof (handleInterrupt_fields fid cl) as (Hr1 & Hr2 & Hr3).
    split; [by eapply same_config_trans|split; [congruence|lia]].
  - split; [done|split; [congruence|lia]].
Qed.

(** To prove a property of every call of [ReadOp], follow the loop: end of
    stream, read error, a frame on which the iteration returns or panics,
    and a frame after which the loop goes on. *)
Lemma ReadOp_cases_ind (P : Connection -> Res (error + Op) * Connection -> Prop) :
  (forall c, incoming (wrapped c) = [] -> P c (Val (inl io_EOF), c)) ->
  (forall c e rest, incoming (wrapped c) = inl e :: rest ->
     P c (Val (inl e), set_incoming rest c)) ->
  (forall c m rest res c1, incoming (wrapped c) = inr m :: rest ->
     ReadOp_iter Convert m (set_incoming rest c) = (Val (Some res), c1) ->
     P c (Val res, c1)) ->
  (forall c m rest p c1, incoming (wrapped c) = inr m :: rest ->
     ReadOp_iter Convert m (set_incoming rest c) = (Panic p, c1) ->
     P c (Panic p, c1)) ->
  (forall c m rest c1, incoming (wrapped c) = inr m :: rest ->
     ReadOp_iter Convert m (set_incoming rest c) = (Val None, c1) ->
     P c1 (ReadOp Convert c1) -> P c (ReadOp Convert c1)) ->
  forall c, P c (ReadOp Convert c).
Proof.
  intros Heof Herr Hret Hpan Hgo c.
  remember (incoming (wrapped c)) as frames eqn:Hin. symmetry in Hin.
  revert c Hin. induction frames as [|[e|m] rest IH]; intros c Hin.
  - rewrite (ReadOp_eof Convert c Hin). by apply Heof.
  - rewrite (ReadOp_read_error Convert c e rest Hin). by apply Herr.
  - rewrite (ReadOp_frame Convert c m rest Hin).
    pose proof (ReadOp_iter_incoming Convert m (set_incoming rest c)) as Hinc.
    destruct (ReadOp_iter Convert m (set_incoming rest c)) as [[[res|]|p] c1] eqn:Hi.
    + by eapply Hret.
    + eapply Hgo; [done|done|]. apply IH. exact Hinc.
    + by eapply Hpan.
Qed.


End ReaderFrames.

Lemma beginOp_ctxSeq m c :
  can_begin m c ->
  ctxSeq (snd (beginOp (Hdr_Opcode m) (Hdr_Unique m) c)) =
    if decide (Hdr_Opcode m = OpForget) then ctxSeq c else S (ctxSeq c).
Proof.
  intros Hb. destruct (decide (Hdr_Opcode m = OpForget)) as [Hf|Hf].
  - by rewrite Hf, beginOp_forget.
  - destruct Hb as [Hb|Hl]; [done|]. by rewrite (beginOp_fresh _ _ _ Hf Hl).
Qed.

Section ReaderReturns.

Variable Convert : Ctx -> Message -> Z -> error + OpData.

(** The op an iteration returns: it is built from the frame, the context
    [beginOp] made for it and the op ID the iteration took. *)
Lemma ReadOp_iter_returned m c op c1 :
  ReadOp_iter Convert m c = (Val (Some (inr op)), c1) ->
  can_begin m c /\
  op_msg op = m /\ op_logID op = nextOpID c /\ op_ctx op = op_context m c /\
  kind (op_data op) = UserOp /\
  cancelFuncs c1 = registered m (ctxSeq c) (cancelFuncs c) /\
  ctxSeq c1 = if decide (Hdr_Opcode m = OpForget) then ctxSeq c else S (ctxSeq c).
Proof.
  intros Hi.
  destruct (can_begin_dec m c) as [Hb|Hb].
  2: { exfalso. revert Hi. rewrite ReadOp_iter_unfold. unfold ReadOp_iter_cases.
       destruct (beginOp_refused m (set_nextOpID ((nextOpID c + 1) mod 2 ^ 32) c) Hb)
         as [cb ->]. done. }
  split; [done|]. revert Hi. rewrite ReadOp_iter_unfold. unfold ReadOp_iter_cases.
  pose proof (beginOp_ctxSeq m (set_nextOpID ((nextOpID c + 1) mod 2 ^ 32) c) Hb)
    as Hseq.
  destruct (beginOp_ok m (set_nextOpID ((nextOpID c + 1) mod 2 ^ 32) c) Hb)
    as (cb & es & Hbeg & Hcf & Hw & _).
  rewrite Hbeg in *. simpl in Hseq, Hcf.
  change (op_context m (set_nextOpID _ c)) with (op_context m c).
  destruct (Convert (op_context m c) m (Protocol (wrapped cb))) as [e|d]; [done|].
  pose proof (debugLog_frame (nextOpID c) (String.append "<- " (ShortDesc d)) cb)
    as [Hdc _].
  pose proof (debugLog_fields (nextOpID c) (String.append "<- " (ShortDesc d)) cb)
    as (_ & _ & Hds).
  destruct (kind d) as [|fid|] eqn:Hk.
  - by destruct (Respond _ _ _) as [[[]|p] c'].
  - done.
  - intros H. inversion H; subst. simpl. rewrite Hdc, Hds. done.
Qed.

(** X2: Op IDs count the frames read, modulo 2^32: the op [ReadOp] returns
    carries the ID of its frame, and every frame that was read before it in
    the same call took an ID as well. *)
Theorem op_ids_count_frames (c : Connection) (op : Op) (c' : Connection) :
  0 <= nextOpID c < 2 ^ 32 ->
  ReadOp Convert c = (Val (inr op), c') ->
  exists pre,
    incoming (wrapped c) = pre ++ inr (op_msg op) :: incoming (wrapped c') /\
    op_logID op = (nextOpID c + Z.of_nat (length pre)) mod 2 ^ 32 /\
    nextOpID c' = (nextOpID c + Z.of_nat (length pre) + 1) mod 2 ^ 32.
Proof.
  intros Hrange Hr.
  cut (0 <= nextOpID c < 2 ^ 32 -> forall op,
         fst (ReadOp Convert c) = Val (inr op) ->
         exists pre,
           incoming (wrapped c) =
             pre ++ inr (op_msg op) :: incoming (wrapped (snd (ReadOp Convert c))) /\
           op_logID op = (nextOpID c + Z.of_nat (length pre)) mod 2 ^ 32 /\
           nextOpID (snd (ReadOp Convert c)) =
             (nextOpID c + Z.of_nat (length pre) + 1) mod 2 ^ 32).
  { intros H. specialize (H Hrange op). rewrite Hr in H. by apply H. }
  clear. apply (ReadOp_cases_ind Convert (fun c r =>
    0 <= nextOpID c < 2 ^ 32 -> forall op,
      fst r = Val (inr op) ->
      exists pre,
        incoming (wrapped c) = pre ++ inr (op_msg op) :: incoming (wrapped (snd r)) /\
        op_logID op = (nextOpID c + Z.of_nat (length pre)) mod 2 ^ 32 /\
        nextOpID (snd r) = (nextOpID c + Z.of_nat (length pre) + 1) mod 2 ^ 32));
    clear c.
  - done.
  - done.
  - intros c m rest res c1 Hin Hi Hrange op Hop. simpl in Hop.
    inversion Hop; subst res.
    pose proof (ReadOp_iter_incoming Convert m (set_incoming rest c)) as Hinc.
    pose proof (ReadOp_iter_fields Convert m (set_incoming rest c)) as (_ & Hn & _).
    rewrite Hi in Hinc, Hn. simpl in Hinc, Hn.
    apply ReadOp_iter_returned in Hi as (_ & Hm & Hid & _). simpl in Hid.
    exists []. simpl. rewrite Hin, Hinc, Hm, Hid, Hn, Z.add_0_r.
    by rewrite Z.mod_small.
  - done.
  - intros c m rest c1 Hin Hi IH Hrange op Hop.
    pose proof (ReadOp_iter_fields Convert m (set_incoming rest c)) as (_ & Hn & _).
    rewrite Hi in Hn. simpl in Hn.
    destruct (IH ltac:(rewrite Hn; by apply Z.mod_pos_bound) op Hop)
      as (pre & Hpre & Hid & Hnext).
    pose proof (ReadOp_iter_incoming Convert m (set_incoming rest c)) as Hinc.
    rewrite Hi in Hinc. simpl in Hinc.
    exists (inr m :: pre). split.
    { rewrite Hin. simpl. by rewrite <- Hpre, Hinc. }
    simpl length. rewrite Hid, Hnext, Hn, Nat2Z.inj_succ. split.
    + rewrite Z.add_mod_idemp_l by done. f_equal. lia.
    + rewrite <- Z.add_assoc, Z.add_mod_idemp_l by done. f_equal. lia.
Qed.

(** X3: The context of the op [ReadOp] returns.  A forget gets the parent
    context.  Any other op gets a child context made during this call, and
    the registry maps the op's unique ID to the cancel function of exactly
    that context. *)
Theorem returned_op_context (c : Connection) (op : Op) (c' : Connection) :
  ReadOp Convert c = (Val (inr op), c') ->
  (Hdr_Opcode (op_msg op) = OpForget /\ op_ctx op = parentCtx c) \/
  (Hdr_Opcode (op_msg op) ≠ OpForget /\
   exists f, (ctxSeq c <= f < ctxSeq c')%nat /\
     op_ctx op = CtxWithCancel (parentCtx c) f /\
     cancelFuncs c' !! Hdr_Unique (op_msg op) = Some f).
Proof.
  intros Hr.
  cut (forall op, fst (ReadOp Convert c) = Val (inr op) ->
         (Hdr_Opcode (op_msg op) = OpForget /\ op_ctx op = parentCtx c) \/
         (Hdr_Opcode (op_msg op) ≠ OpForget /\
          exists f, (ctxSeq c <= f < ctxSeq (snd (ReadOp Convert c)))%nat /\
            op_ctx op = CtxWithCancel (parentCtx c) f /\
            cancelFuncs (snd (ReadOp Convert c)) !! Hdr_Unique (op_msg op) = Some f)).
  { intros H. specialize (H op). rewrite Hr in H. by apply H. }
  clear. apply (ReadOp_cases_ind Convert (fun c r =>
    forall op, fst r = Val (inr op) ->
      (Hdr_Opcode (op_msg op) = OpForget /\ op_ctx op = parentCtx c) \/
      (Hdr_Opcode (op_msg op) ≠ OpForget /\
       exists f, (ctxSeq c <= f < ctxSeq (snd r))%nat /\
         op_ctx op = CtxWithCancel (parentCtx c) f /\
         cancelFuncs (snd r) !! Hdr_Unique (op_msg op) = Some f))); clear c.
  - done.
  - done.
  - intros c m rest res c1 Hin Hi op Hop. simpl in Hop. inversion Hop; subst res.
    apply ReadOp_iter_returned in Hi as (_ & Hm & _ & Hctx & _ & Hcf & Hseq).
    unfold op_context, registered in *. simpl in *. rewrite Hm.
    destruct (decide (Hdr_Opcode m = OpForget)) as [Hf|Hf]; [by left|].
    right. split; [done|]. exists (ctxSeq c).
    rewrite Hseq, Hcf, lookup_insert_eq. split; [lia|done].
  - done.
  - intros c m rest c1 Hin Hi IH op Hop.
    pose proof (ReadOp_iter_fields Convert m (set_incoming rest c))
      as ((Hp & _) & _ & Hseq).
    rewrite Hi in Hp, Hseq. simpl in Hp, Hseq.
    destruct (IH op Hop) as [[Hf Hctx]|(Hf & f & Hrange & Hctx & Hl)].
    + left. split; [done|]. by rewrite Hctx, Hp.
    + right. split; [done|]. exists f. rewrite Hctx, Hp.
      split; [lia|done].
Qed.

End ReaderReturns.




Section ReaderInternals.

Variable Convert : Ctx -> Message -> Z -> error + OpData.


(** X5: The only panic of an iteration of the reader loop is that of
    [recordCancelFunc]: it panics exactly on a frame that is not a forget
    and whose unique ID has an entry already.  The reply that the loop
    commits for a statfs frame never panics. *)
Theorem reader_panics_on_live_id (m : Message) (c : Connection) :
  (panicked (fst (ReadOp_iter Convert m c)) <->
     Hdr_Opcode m ≠ OpForget /\ is_Some (cancelFuncs c !! Hdr_Unique m)) /\
  (forall p, fst (ReadOp_iter Convert m c) = Panic p ->
             p = AlreadyHaveCancelFunc (Hdr_Unique m)).
Proof.
  assert (can_begin m c -> exists v, fst (ReadOp_iter Convert m c) = Val v) as Hok.
  { intros Hb.
    destruct (Convert (op_context m c) m (Protocol (wrapped c))) as [e|d] eqn:Hc.
    - destruct (iter_convert_error Convert m c e Hb Hc) as (c1 & es & -> & _).
      by eexists.
    - destruct (kind d) as [|fid|] eqn:Hk.
      + destruct (iter_statfs Convert m c d Hb Hc Hk) as (c1 & pre & -> & _).
        by eexists.
      + destruct (iter_interrupt Convert m c d fid Hb Hc Hk) as (c1 & es & -> & _).
        by eexists.
      + destruct (iter_user Convert m c d Hb Hc Hk) as (c1 & es & -> & _).
        by eexists. }
  assert (~ can_begin m c ->
          fst (ReadOp_iter Convert m c) = Panic (AlreadyHaveCancelFunc (Hdr_Unique m)))
    as Hno.
  { intros Hb. destruct (iter_refused Convert m c Hb) as [c1 ->]. done. }
  assert (can_begin m c <->
          ~ (Hdr_Opcode m ≠ OpForget /\ is_Some (cancelFuncs c !! Hdr_Unique m)))
    as Hcan.
  { unfold can_begin. destruct (decide (Hdr_Opcode m = OpForget)); [tauto|].
    destruct (cancelFuncs c !! Hdr_Unique m) as [f|].
    - split; [by intros [?|?]|]. intros H. exfalso. apply H. split; [done|by eexists].
    - split; [|by right]. intros _ [_ [x Hx]]. done. }
  destruct (can_begin_dec m c) as [Hb|Hb].
  - destruct (Hok Hb) as [v Hv]. rewrite Hv. split.
    + split; [by intros [p Hp]|]. intros H. by apply Hcan in Hb.
    + done.
  - rewrite (Hno Hb). split.
    + split; [|by eexists]. intros _.
      destruct (decide (Hdr_Opcode m = OpForget)) as [Hf|Hf];
        [exfalso; apply Hb; by left|].
      split; [done|].
      destruct (cancelFuncs c !! Hdr_Unique m) as [f|] eqn:Hl; [by eexists|].
      exfalso. apply Hb. by right.
    + intros p Hp. by inversion Hp.
Qed.

(** X6: Every error [ReadOp] returns is io.EOF at the end of the stream, a read
    error of the kernel channel passed on as it is, or the error of a frame
    that failed to convert, in the context "fuseops.Convert: ".  The frame
    at fault is the last one taken off the stream. *)
Theorem readop_errors (c : Connection) (e : error) (c' : Connection) :
  ReadOp Convert c = (Val (inl e), c') ->
  (e = io_EOF /\ incoming (wrapped c') = [] /\
   exists pre, incoming (wrapped c) = inr <$> pre) \/
  (exists pre, incoming (wrapped c) = pre ++ inl e :: incoming (wrapped c')) \/
  (exists pre m e0 ctx,
     incoming (wrapped c) = pre ++ inr m :: incoming (wrapped c') /\
     Convert ctx m (Protocol (wrapped c)) = inl e0 /\
     e = Errorf "fuseops.Convert: " e0).
Proof.
  intros Hr.
  cut (forall e, fst (ReadOp Convert c) = Val (inl e) ->
    (e = io_EOF /\ incoming (wrapped (snd (ReadOp Convert c))) = [] /\
     exists pre, incoming (wrapped c) = inr <$> pre) \/
    (exists pre, incoming (wrapped c) =
                   pre ++ inl e :: incoming (wrapped (snd (ReadOp Convert c)))) \/
    (exists pre m e0 ctx,
       incoming (wrapped c) =
         pre ++ inr m :: incoming (wrapped (snd (ReadOp Convert c))) /\
       Convert ctx m (Protocol (wrapped c)) = inl e0 /\
       e = Errorf "fuseops.Convert: " e0)).
  { intros H. specialize (H e). rewrite Hr in H. by apply H. }
  clear. apply (ReadOp_cases_ind Convert (fun c r =>
    forall e, fst r = Val (inl e) ->
      (e = io_EOF /\ incoming (wrapped (snd r)) = [] /\
       exists pre, incoming (wrapped c) = inr <$> pre) \/
      (exists pre, incoming (wrapped c) = pre ++ inl e :: incoming (wrapped (snd r))) \/
      (exists pre m e0 ctx,
         incoming (wrapped c) = pre ++ inr m :: incoming (wrapped (snd r)) /\
         Convert ctx m (Protocol (wrapped c)) = inl e0 /\
         e = Errorf "fuseops.Convert: " e0))); clear c.
  - intros c Hin e He. inversion He; subst. left.
    split; [done|]. split; [done|]. exists []. by rewrite Hin.
  - intros c e0 rest Hin e He. inversion He; subst. right. left.
    exists []. by rewrite Hin.
  - intros c m rest res c1 Hin Hi e He. simpl in He. inversion He; subst res.
    right. right.
    pose proof (ReadOp_iter_incoming Convert m (set_incoming rest c)) as Hinc.
    rewrite Hi in Hinc. simpl in Hinc.
    revert Hi. rewrite ReadOp_iter_unfold. unfold ReadOp_iter_cases.
    pose proof (beginOp_fields (Hdr_Opcode m) (Hdr_Unique m)
                  (set_nextOpID ((nextOpID (set_incoming rest c) + 1) mod 2 ^ 32)
                     (set_incoming rest c))) as ((_ & _ & _ & _ & Hp) & _).
    destruct (beginOp _ _ _) as [[opCtx|p] cb]; [|done]. simpl in Hp.
    destruct (Convert opCtx m (Protocol (wrapped cb))) as [e0|d] eqn:Hc.
    + intros H. injection H as He0 Hc1. subst e c1. exists [], m, e0, opCtx.
      simpl. rewrite Hin, Hinc. rewrite Hp in Hc. done.
    + destruct (kind d); [by destruct (Respond _ _ _) as [[[]|?] ?]|done|done].
  - done.
  - intros c m rest c1 Hin Hi IH e He.
    pose proof (ReadOp_iter_incoming Convert m (set_incoming rest c)) as Hinc.
    pose proof (ReadOp_iter_fields Convert m (set_incoming rest c))
      as ((_ & _ & _ & _ & Hp) & _).
    rewrite Hi in Hinc, Hp. simpl in Hinc, Hp.
    destruct (IH e He) as [(-> & Hnil & pre & Hpre)|[[pre Hpre]|
                           (pre & m' & e0 & ctx & Hpre & Hc & ->)]].
    + left. split; [done|]. split; [done|]. exists (m :: pre).
      by rewrite Hin, <- Hinc, Hpre.
    + right. left. exists (inr m :: pre). by rewrite Hin, <- Hinc, Hpre.
    + right. right. exists (inr m :: pre), m', e0, ctx.
      rewrite Hin, <- Hinc, Hpre, <- Hp. done.
Qed.

End ReaderInternals.

(** ** More on the reply closure *)

(** X7: The frame is destroyed exactly once by every invocation of the reply
    closure, as its last effect, also when [finishOp] panics and when the
    write to the kernel fails. *)
Theorem frame_destroyed_once (m : Message) (op : Op) (fuseID : Z)
  (replyMsg : list Byte.byte) (opErr : option error) (c : Connection) :
  exists pre,
    effects (snd (sendReply m op fuseID replyMsg opErr c)) =
      effects c ++ pre ++ [EvDestroy m] /\
    Forall (fun e => is_destroy e = false) pre.
Proof.
  assert (Forall (fun e => is_destroy e = false) (reply_logs c op opErr)) as Hlogs.
  { unfold reply_logs. apply Forall_app. split.
    - destruct (debugLogger c); by repeat constructor.
    - destruct opErr; [|constructor].
      destruct (errorLogger c); by repeat constructor. }
  destruct (sendReply_effects m op fuseID replyMsg opErr c)
    as [[_ He]|[(_ & f & _ & He)|(_ & _ & _ & He)]].
  - exists (reply_logs c op opErr ++ [EvWriteToKernel replyMsg]).
    rewrite He. rewrite <- !app_assoc. split; [done|].
    apply Forall_app. split; [done|]. by repeat constructor.
  - exists ([EvCancel f; EvDelete (Hdr_Unique m)] ++ reply_logs c op opErr ++
            [EvWriteToKernel replyMsg]).
    rewrite He. rewrite <- !app_assoc. split; [done|].
    repeat constructor. apply Forall_app. split; [done|]. by repeat constructor.
  - exists []. rewrite He. split; [done|constructor].
Qed.

(** X8: When [finishOp] does not panic, the reply closure calls [WriteToKernel]
    once and returns its outcome: nil if the write succeeded, and the
    write error in the context "WriteToKernel: " if it failed.  The write
    is not retried, and by then the op's registry entry is gone. *)
Theorem write_outcome_returned (m : Message) (op : Op) (fuseID : Z)
  (replyMsg : list Byte.byte) (opErr : option error) (c : Connection) :
  can_finish m c ->
  fst (sendReply m op fuseID replyMsg opErr c) =
    Val (Errorf "WriteToKernel: " <$> writeErrs (wrapped c) (nWritten (wrapped c))) /\
  nWritten (wrapped (snd (sendReply m op fuseID replyMsg opErr c))) =
    S (nWritten (wrapped c)) /\
  length (filter (fun e => is_write e = true)
            (effects (snd (sendReply m op fuseID replyMsg opErr c)))) =
    S (length (filter (fun e => is_write e = true) (effects c))) /\
  (Hdr_Opcode m ≠ OpForget ->
   cancelFuncs (snd (sendReply m op fuseID replyMsg opErr c)) !! Hdr_Unique m = None).
Proof.
  assert (forall es, no_write es ->
            filter (fun e => is_write e = true) es = []) as Hnone.
  { induction 1 as [|e es He _ IH]; [done|].
    rewrite filter_cons_False; [done|]. by rewrite He. }
  intros Hcan.
  destruct (finishOp_cases (Hdr_Opcode m) (Hdr_Unique m) c)
    as [[Hf H]|[(Hf & f & c1 & Hl & H & Hcf & Hw)|(Hf & Hl & _)]].
  - rewrite (sendReply_ok _ _ _ _ _ _ _ H). unfold reply_result. simpl.
    rewrite wrapped_add_effects, effects_add_effects.
    split; [by destruct (writeErrs _ _)|]. split; [done|]. split; [|done].
    rewrite !filter_app, (Hnone _ (reply_logs_no_write c op opErr)), !length_app.
    simpl. lia.
  - rewrite (sendReply_ok _ _ _ _ _ _ _ H). unfold reply_result. simpl.
    rewrite wrapped_add_effects, effects_add_effects, cancelFuncs_add_effects, Hw.
    split; [by destruct (writeErrs _ _)|]. split; [done|]. split.
    + rewrite (finishOp_present _ _ _ _ Hf Hl) in H. inversion H; subst c1.
      simpl. rewrite !filter_app.
      rewrite (Hnone (reply_logs _ op opErr)) by apply reply_logs_no_write.
      rewrite !length_app. simpl. lia.
    + intros _. rewrite Hcf. apply lookup_delete_eq.
  - exfalso. destruct Hcan as [Hcan|[x Hx]]; congruence.
Qed.


(** X10: A unique ID is taken from [beginOp] until the reply commit and free
    again right after it: while the op awaits its reply a second frame with
    the same ID that is not a forget is refused, and once the reply closure
    has run such a frame is accepted. *)
Theorem id_free_after_reply (m m' : Message) (op : Op) (fuseID : Z)
  (replyMsg : list Byte.byte) (opErr : option error) (c : Connection) :
  Hdr_Opcode m ≠ OpForget ->
  is_Some (cancelFuncs c !! Hdr_Unique m) ->
  Hdr_Unique m' = Hdr_Unique m ->
  Hdr_Opcode m' ≠ OpForget ->
  fst (beginOp (Hdr_Opcode m') (Hdr_Unique m') c) =
    Panic (AlreadyHaveCancelFunc (Hdr_Unique m)) /\
  exists ctx c1,
    beginOp (Hdr_Opcode m') (Hdr_Unique m')
      (snd (sendReply m op fuseID replyMsg opErr c)) = (Val ctx, c1) /\
    is_Some (cancelFuncs c1 !! Hdr_Unique m).
Proof.
  intros Hf [f Hl] Hu Hf'. rewrite Hu. split.
  - by rewrite (beginOp_dup _ _ _ _ Hf' Hl).
  - rewrite (sendReply_ok _ _ _ _ _ _ _ (finishOp_present _ _ _ _ Hf Hl)).
    rewrite beginOp_fresh; [|done|].
    + eexists _, _. split; [done|]. simpl. rewrite lookup_insert_eq. by eexists.
    + simpl. rewrite cancelFuncs_add_effects. simpl. apply lookup_delete_eq.
Qed.

(** X11: The reply closure is for one use.  A second invocation for an op that
    is not a forget panics in [finishOp], since the entry is gone; it
    writes nothing to the kernel and destroys the frame a second time. *)
Theorem second_reply_panics (m : Message) (op op' : Op) (fuseID fuseID' : Z)
  (replyMsg replyMsg' : list Byte.byte) (opErr opErr' : option error)
  (c : Connection) :
  Hdr_Opcode m ≠ OpForget ->
  is_Some (cancelFuncs c !! Hdr_Unique m) ->
  sendReply m op' fuseID' replyMsg' opErr'
    (snd (sendReply m op fuseID replyMsg opErr c)) =
    (Panic (UnknownRequestID (Hdr_Unique m)),
     add_effect (EvDestroy m) (snd (sendReply m op fuseID replyMsg opErr c))).
Proof.
  intros Hf [f Hl].
  apply sendReply_panic. apply finishOp_absent; [done|].
  rewrite (sendReply_ok _ _ _ _ _ _ _ (finishOp_present _ _ _ _ Hf Hl)).
  simpl. rewrite cancelFuncs_add_effects. simpl. apply lookup_delete_eq.
Qed.

(** ** The order of delivery *)

Section Delivery.

Variable Convert : Ctx -> Message -> Z -> error + OpData.




End Delivery.

(** ** The theorems of the last sections at sample connections *)

Lemma op_ids_count_frames_witness :
  let c := Scenario.last_op_id
             [Sample.frame OpStatfs 1; Sample.frame Sample.OpLookup 2] in
  exists op c',
    ReadOp Sample.Convert c = (Val (inr op), c') /\
    op_logID op = 0 /\ nextOpID c' = 1 /\
    exists pre,
      incoming (wrapped c) = pre ++ inr (op_msg op) :: incoming (wrapped c') /\
      op_logID op = (nextOpID c + Z.of_nat (length pre)) mod 2 ^ 32 /\
      nextOpID c' = (nextOpID c + Z.of_nat (length pre) + 1) mod 2 ^ 32.
Proof.
  eexists _, _. split; [vm_compute; reflexivity|].
  split; [reflexivity|]. split; [reflexivity|].
  apply (op_ids_count_frames Sample.Convert
           (Scenario.last_op_id
              [Sample.frame OpStatfs 1; Sample.frame Sample.OpLookup 2])).
  - simpl. lia.
  - vm_compute. reflexivity.
Defined.

Lemma returned_op_context_witness :
  let c := Sample.connection
             [Sample.frame OpStatfs 1; Sample.frame Sample.OpLookup 2] in
  exists op c',
    ReadOp Sample.Convert c = (Val (inr op), c') /\
    op_ctx op = CtxWithCancel CtxParent 1 /\
    ((Hdr_Opcode (op_msg op) = OpForget /\ op_ctx op = parentCtx c) \/
     (Hdr_Opcode (op_msg op) ≠ OpForget /\
      exists f, (ctxSeq c <= f < ctxSeq c')%nat /\
        op_ctx op = CtxWithCancel (parentCtx c) f /\
        cancelFuncs c' !! Hdr_Unique (op_msg op) = Some f)).
Proof.
  eexists _, _. split; [vm_compute; reflexivity|]. split; [reflexivity|].
  apply (returned_op_context Sample.Convert
           (Sample.connection
              [Sample.frame OpStatfs 1; Sample.frame Sample.OpLookup 2])).
  vm_compute. reflexivity.
Defined.


Lemma readop_errors_witness :
  let c := Sample.connection [Sample.frame OpStatfs 1; Sample.frame 99 7] in
  exists c',
    ReadOp Sample.Convert c =
      (Val (inl "fuseops.Convert: unknown opcode"%string), c') /\
    let e := "fuseops.Convert: unknown opcode"%string in
    ((e = io_EOF /\ incoming (wrapped c') = [] /\
      exists pre, incoming (wrapped c) = inr <$> pre) \/
     (exists pre, incoming (wrapped c) = pre ++ inl e :: incoming (wrapped c')) \/
     (exists pre m e0 ctx,
        incoming (wrapped c) = pre ++ inr m :: incoming (wrapped c') /\
        Sample.Convert ctx m (Protocol (wrapped c)) = inl e0 /\
        e = Errorf "fuseops.Convert: " e0)).
Proof.
  eexists. split; [vm_compute; reflexivity|].
  apply (readop_errors Sample.Convert
           (Sample.connection [Sample.frame OpStatfs 1; Sample.frame 99 7])).
  vm_compute. reflexivity.
Defined.


Lemma write_outcome_returned_witness :
  let c := Scenario.failing_writes in
  let m := Sample.frame OpForget 3 in
  let op := mkOp (Sample.data UserOp "ForgetInode") CtxParent m 0 in
  fst (sendReply m op 3 [] None c) =
    Val (Errorf "WriteToKernel: " <$> writeErrs (wrapped c) (nWritten (wrapped c))) /\
  nWritten (wrapped (snd (sendReply m op 3 [] None c))) =
    S (nWritten (wrapped c)) /\
  length (filter (fun e => is_write e = true)
            (effects (snd (sendReply m op 3 [] None c)))) =
    S (length (filter (fun e => is_write e = true) (effects c))) /\
  (Hdr_Opcode m ≠ OpForget ->
   cancelFuncs (snd (sendReply m op 3 [] None c)) !! Hdr_Unique m = None).
Proof.
  apply (write_outcome_returned (Sample.frame OpForget 3)
           (mkOp (Sample.data UserOp "ForgetInode") CtxParent
              (Sample.frame OpForget 3) 0)
           3 [] None Scenario.failing_writes).
  left. reflexivity.
Defined.


Lemma id_free_after_reply_witness :
  let c := Scenario.read_in_flight [] in
  let m := Sample.frame Sample.OpRead 9 in
  let m' := Sample.frame Sample.OpLookup 9 in
  let op := mkOp (Sample.data UserOp "ReadFile") CtxParent m 0 in
  fst (beginOp (Hdr_Opcode m') (Hdr_Unique m') c) =
    Panic (AlreadyHaveCancelFunc (Hdr_Unique m)) /\
  exists ctx c1,
    beginOp (Hdr_Opcode m') (Hdr_Unique m') (snd (sendReply m op 9 [] None c))
      = (Val ctx, c1) /\
    is_Some (cancelFuncs c1 !! Hdr_Unique m).
Proof.
  apply (id_free_after_reply (Sample.frame Sample.OpRead 9)
           (Sample.frame Sample.OpLookup 9)
           (mkOp (Sample.data UserOp "ReadFile") CtxParent
              (Sample.frame Sample.OpRead 9) 0)
           9 [] None (Scenario.read_in_flight [])).
  - unfold Sample.frame, Sample.OpRead, OpForget. simpl. lia.
  - exists 0%nat. reflexivity.
  - reflexivity.
  - unfold Sample.frame, Sample.OpLookup, OpForget. simpl. lia.
Defined.

Lemma second_reply_panics_witness :
  let c := Scenario.read_in_flight [] in
  let m := Sample.frame Sample.OpRead 9 in
  let op := mkOp (Sample.data UserOp "ReadFile") CtxParent m 0 in
  sendReply m op 9 [] None (snd (sendReply m op 9 [] None c)) =
    (Panic (UnknownRequestID (Hdr_Unique m)),
     add_effect (EvDestroy m) (snd (sendReply m op 9 [] None c))).
Proof.
  apply (second_reply_panics (Sample.frame Sample.OpRead 9)
           (mkOp (Sample.data UserOp "ReadFile") CtxParent
              (Sample.frame Sample.OpRead 9) 0)
           (mkOp (Sample.data UserOp "ReadFile") CtxParent
              (Sample.frame Sample.OpRead 9) 0)
           9 9 [] [] None None (Scenario.read_in_flight [])).
  - unfold Sample.frame, Sample.OpRead, OpForget. simpl. lia.
  - exists 0%nat. reflexivity.
Defined.

(** ** forgetfs: the invariants of [fsImpl] *)

Module ForgetFSProofs.
Import ForgetFS.


(** [checkInvariants] returns exactly when the two invariants hold. *)
Lemma checkInvariants_iff fs : checkInvariants fs = Val tt <-> invariants fs.
Proof.
  unfold checkInvariants, invariants. split.
  - destruct (decide (map_Forall _ _)) as [H1|]; [|done].
    destruct (decide (map_Forall _ _)) as [H2|]; [|done].
    intros _. split; [exact H1|exact H2].
  - intros [H1 H2]. rewrite decide_True by exact H1.
    by rewrite decide_True by exact H2.
Qed.

Lemma findInodeByID_Val fs id i :
  findInodeByID fs id = Val i -> inodes fs !! id = Some i /\ 0 < lookupCount i.
Proof.
  unfold findInodeByID. destruct (inodes fs !! id) as [j|]; [|done].
  destruct (decide (lookupCount j <= 0)); [done|].
  intros H. inversion H; subst. split; [done|lia].
Qed.

(** A method run under [fs.mu] leaves behind what its body leaves behind,
    or the file system it started from. *)
Lemma locked_snd {A} checking (body : fsImpl -> Res A * fsImpl) fs :
  snd (locked checking body fs) = snd (body fs) \/
  snd (locked checking body fs) = fs.
Proof.
  unfold locked. destruct (mu_check checking fs); [|by right].
  destruct (body fs) as [r fs']. left.
  by destruct (mu_check checking fs').
Qed.

Lemma GetInodeAttributes_same checking id fs :
  snd (GetInodeAttributes checking id fs) = fs.
Proof.
  unfold GetInodeAttributes.
  destruct (locked_snd checking
              (fun fs => match findInodeByID fs id with
                         | Panic p => (Panic p, fs)
                         | Val i => (Val (attributes i), fs)
                         end) fs) as [-> | ->]; [|done].
  by destruct (findInodeByID fs id).
Qed.

(** What [LookUpInode] leaves behind: the file system as it was, or the
    file system with the lookup count of a findable child incremented. *)
Lemma LookUpInode_snd checking parent name fs :
  snd (LookUpInode checking parent name fs) = fs \/
  exists childID child,
    (childID = cannedID_Foo \/ childID = cannedID_Bar) /\
    inodes fs !! childID = Some child /\ 0 < lookupCount child /\
    snd (LookUpInode checking parent name fs) =
      {| inodes :=
           <[childID := {| attributes := attributes child;
                           lookupCount := wrap_int (lookupCount child + 1) |}]>
             (inodes fs);
         nextInodeID := nextInodeID fs |}.
Proof.
  unfold LookUpInode.
  match goal with |- context [locked checking ?b fs] =>
    destruct (locked_snd checking b fs) as [-> | ->] end; [|by left].
  destruct (findInodeByID fs parent); [|by left].
  destruct (decide (parent = cannedID_Root /\ name = "foo"%string)).
  - destruct (findInodeByID fs cannedID_Foo) as [child|] eqn:Hc; [|by left].
    apply findInodeByID_Val in Hc as [Hc Hpos]. right.
    eexists _, _. split; [by left|done].
  - destruct (decide (parent = cannedID_Root /\ name = "bar"%string)); [|by left].
    destruct (findInodeByID fs cannedID_Bar) as [child|] eqn:Hc; [|by left].
    apply findInodeByID_Val in Hc as [Hc Hpos]. right.
    eexists _, _. split; [by right|done].
Qed.


Lemma NewFileSystem_invariants : invariants NewFileSystem.
Proof. apply checkInvariants_iff. reflexivity. Qed.



(** As the file stands no lookup of "foo" or "bar" gets as far as the
    increment: both start with a lookup count of zero, which
    [findInodeByID] refuses.  So no operation changes the file system that
    [NewFileSystem] builds, and the invariants hold in every file system
    that is reached from it. *)
Lemma serve_NewFileSystem checking q :
  serve checking q NewFileSystem = NewFileSystem.
Proof.
  destruct q as [|parent name|id]; simpl.
  - done.
  - destruct (LookUpInode_snd checking parent name NewFileSystem)
      as [-> | (childID & child & [-> | ->] & Hc & Hpos & _)]; [done| |];
      exfalso; vm_compute in Hc; inversion Hc; subst; simpl in Hpos; lia.
  - apply GetInodeAttributes_same.
Qed.

Lemma reachable_invariants checking (qs : list Request) :
  invariants (fold_left (fun fs q => serve checking q fs) qs NewFileSystem).
Proof.
  induction qs as [|q qs IH] using rev_ind; simpl.
  - apply checkInvariants_iff. reflexivity.
  - rewrite fold_left_app. simpl.
    assert (forall l, fold_left (fun fs q => serve checking q fs) l NewFileSystem
                      = NewFileSystem) as Hfix.
    { induction l as [|x l IHl] using rev_ind; [done|].
      rewrite fold_left_app. simpl. rewrite IHl. apply serve_NewFileSystem. }
    rewrite Hfix, serve_NewFileSystem. apply checkInvariants_iff. reflexivity.
Qed.

End ForgetFSProofs.

(** ** forgetfs: what the operations return *)

Module ForgetFSOps.
Import ForgetFS ForgetFSProofs.




(** X12: [checkInvariants] returns exactly when both invariants hold.  It
    panics with "Negative lookup count" exactly when some inode has a
    negative lookup count, and with "Unexpectedly large inode ID" exactly
    when no lookup count is negative and some inode ID is not below
    [nextInodeID]. *)
Theorem checkInvariants_outcomes (fs : fsImpl) :
  (checkInvariants fs = Val tt <-> invariants fs) /\
  (checkInvariants fs = Panic NegativeLookupCount <->
     exists k v, inodes fs !! k = Some v /\ lookupCount v < 0) /\
  (checkInvariants fs = Panic UnexpectedlyLargeInodeID <->
     (forall k v, inodes fs !! k = Some v -> lookupCount v >= 0) /\
     exists k v, inodes fs !! k = Some v /\ nextInodeID fs <= k).
Proof.
  split; [apply checkInvariants_iff|].
  unfold checkInvariants.
  destruct (decide (map_Forall (fun _ v => lookupCount v >= 0) (inodes fs)))
    as [H1|H1].
  - destruct (decide (map_Forall (fun k _ => k < nextInodeID fs) (inodes fs)))
      as [H2|H2].
    + split; (split; [done|]).
      * intros (k & v & Hk & Hneg). specialize (H1 k v Hk). simpl in H1. lia.
      * intros (_ & k & v & Hk & Hge). specialize (H2 k v Hk). simpl in H2. lia.
    + split; (split; [try done|]).
      * intros (k & v & Hk & Hneg). specialize (H1 k v Hk). simpl in H1. lia.
      * intros _. split; [exact H1|].
        apply map_not_Forall in H2; [|apply _].
        destruct H2 as (k & v & Hk & Hge). exists k, v. split; [done|lia].
      * done.
  - split; (split; [try done|]).
    + intros _. apply map_not_Forall in H1; [|apply _].
      destruct H1 as (k & v & Hk & Hneg). exists k, v. split; [done|lia].
    + done.
    + intros (H & _). done.
Qed.






(** X17: No operation adds or removes an inode, changes an inode's attributes or
    changes [nextInodeID]; a lookup count changes only for "foo" and
    "bar". *)
Theorem serve_keeps_inodes (checking : bool) (q : Request) (fs : fsImpl) :
  nextInodeID (serve checking q fs) = nextInodeID fs /\
  (forall k, attributes <$> inodes (serve checking q fs) !! k =
             attributes <$> inodes fs !! k) /\
  (forall k, k ≠ cannedID_Foo -> k ≠ cannedID_Bar ->
             inodes (serve checking q fs) !! k = inodes fs !! k).
Proof.
  destruct q as [|parent name|id]; simpl.
  - done.
  - destruct (LookUpInode_snd checking parent name fs)
      as [-> | (childID & child & Hid & Hc & Hpos & ->)]; [done|].
    simpl. split; [done|]. split.
    + intros k. destruct (decide (childID = k)) as [->|Hne].
      * by rewrite lookup_insert_eq, Hc.
      * by rewrite lookup_insert_ne.
    + intros k Hfoo Hbar. rewrite lookup_insert_ne; [done|].
      destruct Hid as [-> | ->]; done.
  - by rewrite GetInodeAttributes_same.
Qed.







End ForgetFSOps.
